(** * impsort: sorting the top-level imports of a Python module

    A shallow embedding of [impsort.py] (class [ImpSorter] and the helpers it
    uses) together with the properties of its collector, sort-key builder and
    renderer.

    The embedding follows Python 3: comparing [None] with a string, or two
    AST nodes, raises [TypeError]; exceptions are values of the type [exn]
    and every function that can raise returns a [result]. *)

From Stdlib Require Import List String Ascii ZArith Bool Lia Permutation Sorted FinFun
  RelationClasses OrdersEx.
Import ListNotations.

Local Open Scope string_scope.
Local Open Scope list_scope.

(** ** Exceptions *)

Inductive exn : Type :=
| TypeError | AttributeError | IndexError | ImportError | OSError | SyntaxError.

Inductive result (A : Type) : Type :=
| Ok (a : A)
| Raise (e : exn).

Arguments Ok {A} a.
Arguments Raise {A} e.

Definition bind {A B : Type} (r : result A) (k : A -> result B) : result B :=
  match r with
  | Ok a => k a
  | Raise e => Raise e
  end.

Notation "x <- e ;; k" := (bind e (fun x => k))
  (at level 61, e at next level, right associativity).
Notation "' p <- e ;; k" := (bind e (fun p => k))
  (at level 61, p pattern, e at next level, right associativity).

(** [for x in l: r.append(f(x))], stopping at the first exception. *)
Fixpoint mapM {A B : Type} (f : A -> result B) (l : list A) : result (list B) :=
  match l with
  | [] => Ok []
  | x :: l' => y <- f x ;; ys <- mapM f l' ;; Ok (y :: ys)
  end.

(** [l[0]] *)
Definition index0 {A : Type} (l : list A) : result A :=
  match l with
  | x :: _ => Ok x
  | [] => Raise IndexError
  end.

(** ** Python's rich comparison, as far as the program uses it

    [py_eq] is [==] and [py_lt] is [<]; the latter raises [TypeError] on
    operands that Python 3 does not order. *)

Class PyOrd (A : Type) : Type := {
  py_eq : A -> A -> bool;
  py_lt : A -> A -> result bool
}.

#[export] Instance PyOrd_int : PyOrd Z := {|
  py_eq := Z.eqb;
  py_lt a b := Ok (Z.ltb a b)
|}.

#[export] Instance PyOrd_str : PyOrd string := {|
  py_eq := String.eqb;
  py_lt a b := Ok (String.ltb a b)
|}.

(** A value that may be [None]. *)
#[export] Instance PyOrd_option (A : Type) `{PyOrd A} : PyOrd (option A) := {|
  py_eq a b :=
    match a, b with
    | None, None => true
    | Some x, Some y => py_eq x y
    | _, _ => false
    end;
  py_lt a b :=
    match a, b with
    | Some x, Some y => py_lt x y
    | _, _ => Raise TypeError
    end
|}.

Fixpoint list_eq {A : Type} `{PyOrd A} (l1 l2 : list A) : bool :=
  match l1, l2 with
  | [], [] => true
  | x :: l1', y :: l2' => py_eq x y && list_eq l1' l2'
  | _, _ => false
  end.

(** Sequences compare at the first index whose items differ; when one is a
    prefix of the other the shorter one is smaller. *)
Fixpoint list_lt {A : Type} `{PyOrd A} (l1 l2 : list A) : result bool :=
  match l1, l2 with
  | [], [] => Ok false
  | [], _ :: _ => Ok true
  | _ :: _, [] => Ok false
  | x :: l1', y :: l2' => if py_eq x y then list_lt l1' l2' else py_lt x y
  end.

#[export] Instance PyOrd_list (A : Type) `{PyOrd A} : PyOrd (list A) := {|
  py_eq := list_eq;
  py_lt := list_lt
|}.

(** Tuples; an n-tuple is a left-nested pair, which gives the same
    first-difference rule. *)
#[export] Instance PyOrd_tuple (A B : Type) `{PyOrd A} `{PyOrd B} : PyOrd (A * B) := {|
  py_eq p q := py_eq (fst p) (fst q) && py_eq (snd p) (snd q);
  py_lt p q :=
    if py_eq (fst p) (fst q)
    then (if py_eq (snd p) (snd q) then Ok false else py_lt (snd p) (snd q))
    else py_lt (fst p) (fst q)
|}.

(** ** [sorted]

    A stable insertion sort that asks only [x < y], as CPython's sort does,
    and raises as soon as a comparison raises. *)

Fixpoint insert {A : Type} `{PyOrd A} (x : A) (l : list A) : result (list A) :=
  match l with
  | [] => Ok [x]
  | y :: l' =>
      b <- py_lt x y ;;
      if b then Ok (x :: y :: l')
      else (r <- insert x l' ;; Ok (y :: r))
  end.

Definition sorted_from {A : Type} `{PyOrd A} (acc : result (list A)) (l : list A)
  : result (list A) :=
  fold_left (fun acc x => s <- acc ;; insert x s) l acc.

Definition sorted {A : Type} `{PyOrd A} (l : list A) : result (list A) :=
  sorted_from (Ok []) l.

(** ** Strings *)

Definition nl : string := String "010"%char EmptyString.

(** [s.split(sep)] for a one-character separator. *)
Fixpoint split (sep : ascii) (s : string) : list string :=
  match s with
  | EmptyString => [EmptyString]
  | String c s' =>
      if Ascii.eqb c sep then EmptyString :: split sep s'
      else match split sep s' with
           | w :: ws => String c w :: ws
           | [] => [String c EmptyString]
           end
  end.

(** ['.' * n] *)
Fixpoint str_mul (s : string) (n : nat) : string :=
  match n with
  | O => EmptyString
  | S n' => (s ++ str_mul s n')%string
  end.

(** [str(x)] of a string that may be [None], as [str.format] prints it. *)
Definition format_opt (m : option string) : string :=
  match m with
  | Some s => s
  | None => "None"
  end.

(** Truth value of a string that may be [None]. *)
Definition truthy (m : option string) : bool :=
  match m with
  | Some s => negb (s =? "")%string
  | None => false
  end.

(** ** Syntax trees *)

Record alias : Type := mk_alias { name : string; asname : option string }.

(** The nodes the visitor meets.  [Stmt] stands for every other node, with
    its child nodes. *)
#[warnings="-register-all"]
Inductive node : Type :=
| Import (col_offset : nat) (names : list alias)
| ImportFrom (col_offset : nat) (module : option string) (names : list alias) (level : nat)
| Stmt (col_offset : nat) (body : list node).

(** ** The run environment

    [stdmodules] is what [iter_stdmodules] enumerates, [find_module] is
    [imp.find_module]: it returns or raises. *)

Record Env : Type := {
  stdmodules : list string;
  builtin_module_names : list string;
  sys_path : list string;
  find_module : string -> list string -> result unit
}.

(** [self.stdlibs] and [self.python_paths], set once in [__init__]. *)
Definition stdlibs (env : Env) : list string :=
  stdmodules env ++ builtin_module_names env ++ ["itertools"; "operator"].

Definition python_paths (env : Env) : list string :=
  filter (fun p => negb (p =? "")%string) (sys_path env).

(** ** The collector *)

Definition name_pair : Type := (string * option string)%type.
Definition from_key : Type := (nat * option string)%type.

Definition option_string_dec (a b : option string) : {a = b} + {a <> b}.
Proof. decide equality. apply string_dec. Defined.

Definition name_pair_dec (a b : name_pair) : {a = b} + {a <> b}.
Proof. decide equality. apply option_string_dec. apply string_dec. Defined.

Definition from_key_dec (a b : from_key) : {a = b} + {a <> b}.
Proof. decide equality. apply option_string_dec. apply Nat.eq_dec. Defined.

(** A set is a list without duplicates; its order is the iteration order. *)
Definition set_add (s : list name_pair) (x : name_pair) : list name_pair :=
  if in_dec name_pair_dec x s then s else s ++ [x].

Definition set_update (s : list name_pair) (xs : list name_pair) : list name_pair :=
  fold_left set_add xs s.

(** [d[k].update(xs)] on a [defaultdict(set)]. *)
Fixpoint dict_update (d : list (from_key * list name_pair)) (k : from_key)
  (xs : list name_pair) : list (from_key * list name_pair) :=
  match d with
  | [] => [(k, set_update [] xs)]
  | (k', s) :: d' =>
      if from_key_dec k k' then (k', set_update s xs) :: d'
      else (k', s) :: dict_update d' k xs
  end.

Record ImpSorter : Type := {
  original_nodes : list node;
  imports : list name_pair;
  from_imports : list (from_key * list name_pair)
}.

Definition init : ImpSorter :=
  {| original_nodes := []; imports := []; from_imports := [] |}.

Definition pairs_of (names : list alias) : list name_pair :=
  map (fun nm => (name nm, asname nm)) names.

Definition visit_Import (self : ImpSorter) (n : node) (col : nat) (names : list alias)
  : ImpSorter :=
  if negb (col =? 0)%nat then self
  else {| original_nodes := original_nodes self ++ [n];
          imports := set_update (imports self) (pairs_of names);
          from_imports := from_imports self |}.

Definition visit_ImportFrom (self : ImpSorter) (n : node) (col : nat)
  (module : option string) (names : list alias) (level : nat) : ImpSorter :=
  if negb (col =? 0)%nat then self
  else {| original_nodes := original_nodes self ++ [n];
          imports := imports self;
          from_imports := dict_update (from_imports self) (level, module) (pairs_of names) |}.

(** [NodeVisitor.visit]: the two import methods, [generic_visit] otherwise. *)
Fixpoint visit (self : ImpSorter) (n : node) : ImpSorter :=
  match n with
  | Import col names => visit_Import self n col names
  | ImportFrom col module names level => visit_ImportFrom self n col module names level
  | Stmt _ body => fold_left visit body self
  end.

(** [i.visit(tree)] on the module node, whose children are [body]. *)
Definition visit_tree (body : list node) : ImpSorter :=
  fold_left visit body init.

(** ** The sort key *)

Definition sort_key : Type :=
  (Z * Z * Z * Z * list (option string) * option (list string))%type.

Definition is_thirdparty (env : Env) (modname : string) : result bool :=
  match find_module env modname (python_paths env) with
  | Ok _ => Ok true
  | Raise ImportError => Ok false
  | Raise e => Raise e
  end.

Definition _node_sort_key (env : Env) (n : node) : result sort_key :=
  ' (name_, from_names, fromimport) <-
    match n with
    | Import _ names =>
        a <- index0 names ;;
        Ok ([Some (name a); asname a], @None (list string), 0%Z)
    | ImportFrom _ module names _ =>
        Ok ([module], Some (map name names), 1%Z)
    | Stmt _ _ => Raise TypeError
    end ;;
  name0 <- index0 name_ ;;
  s <- match name0 with
       | Some s => Ok s
       | None => Raise AttributeError
       end ;;
  modname <- index0 (split "." s) ;;
  if (modname =? "__future__")%string then
    Ok (0, 1, 1, fromimport, name_, from_names)%Z
  else if in_dec string_dec modname (stdlibs env) then
    Ok (1, 0, 1, fromimport, name_, from_names)%Z
  else
    tp <- is_thirdparty env modname ;;
    if tp then Ok (1, 1, 0, fromimport, name_, from_names)%Z
    else Ok (1, 1, 1, fromimport, name_, from_names)%Z.

(** ** New nodes *)

(** Two entries of the list never share a node and the sort never compares
    an entry with itself, so [==] on the nodes it meets is always false;
    [<] on nodes is not defined. *)
#[export] Instance PyOrd_node : PyOrd node := {|
  py_eq _ _ := false;
  py_lt _ _ := Raise TypeError
|}.

Definition entry : Type := (sort_key * node)%type.

Definition keyed (env : Env) (n : node) : result entry :=
  k <- _node_sort_key env n ;; Ok (k, n).

Definition from_nodes (env : Env) (item : from_key * list name_pair)
  : result (list entry) :=
  let '((level, module), names) := item in
  sn <- sorted names ;;
  mapM (fun '(nm, asnm) =>
          keyed env (ImportFrom 0 module [mk_alias nm asnm] level)) sn.

Definition import_node (env : Env) (p : name_pair) : result entry :=
  let '(nm, asnm) := p in keyed env (Import 0 [mk_alias nm asnm]).

Definition new_nodes (env : Env) (self : ImpSorter) : result (list entry) :=
  froms <- mapM (from_nodes env) (from_imports self) ;;
  plains <- mapM (import_node env) (imports self) ;;
  Ok (List.concat froms ++ plains).

(** ** The renderer *)

Definition print (line : string) (file : string) : string :=
  (file ++ line ++ nl)%string.

Definition key3 (k : sort_key) : Z * Z * Z :=
  let '(future, stdlib, thirdparty, _, _, _) := k in (future, stdlib, thirdparty).

Definition render_alias (a : alias) : string :=
  String.concat " as "
    (map format_opt (filter truthy [Some (name a); asname a])).

Definition all_names (names : list alias) : string :=
  String.concat ", " (map render_alias names).

Definition write_node (n : node) (file : string) : string :=
  match n with
  | Import _ names => print ("import " ++ all_names names) file
  | ImportFrom _ module names level =>
      print ("from " ++ str_mul "." level ++ format_opt module
             ++ " import " ++ all_names names) file
  | Stmt _ _ => file
  end.

Fixpoint write_loop (pkey : option sort_key) (entries : list entry) (file : string)
  : string :=
  match entries with
  | [] => file
  | (key, n) :: rest =>
      let file :=
        match pkey with
        | Some pk => if negb (py_eq (key3 key) (key3 pk)) then print "" file else file
        | None => file
        end in
      write_loop (Some key) rest (write_node n file)
  end.

Definition write_sorted (env : Env) (self : ImpSorter) (file : string) : result string :=
  nodes <- new_nodes env self ;;
  s <- sorted nodes ;;
  Ok (write_loop None s file).

(** [main], from the parsed tree on. *)
Definition run (env : Env) (body : list node) : result string :=
  write_sorted env (visit_tree body) "".

(** ** A sample environment and sample inputs *)

Definition sample_env : Env := {|
  stdmodules := ["os"; "sys"; "re"];
  builtin_module_names := ["sys"; "time"];
  sys_path := [""; "/usr/lib/python3/site-packages"];
  find_module m _ :=
    if (m =? "requests")%string then Ok tt
    else if (m =? "locked")%string then Raise OSError
    else Raise ImportError
|}.

Definition imp (m : string) : node := Import 0 [mk_alias m None].
Definition frm (level : nat) (m : string) (x : string) : node :=
  ImportFrom 0 (Some m) [mk_alias x None] level.

(** The text made of the given lines, each ended by a newline. *)
Fixpoint unlines (ls : list string) : string :=
  match ls with
  | [] => EmptyString
  | l :: ls' => (l ++ nl ++ unlines ls')%string
  end.

(** ** Laws of the comparison

    [py_lt a b = Ok true] is a strict order on the operands that Python
    orders at all; these laws hold for every type the sort keys are made of. *)

Class PyOrdLaws (A : Type) `{PyOrd A} : Prop := {
  py_eq_spec : forall a b : A, py_eq a b = true <-> a = b;
  py_lt_trans : forall a b c : A,
    py_lt a b = Ok true -> py_lt b c = Ok true -> py_lt a c = Ok true;
  py_lt_false : forall a b : A,
    py_lt a b = Ok false -> a = b \/ py_lt b a = Ok true;
  py_lt_true : forall a b : A,
    py_lt a b = Ok true -> py_lt b a = Ok false
}.

(** ** What the collector holds

    An [item] is one imported name together with where it comes from; the
    state of the collector is, up to iteration order, the set of its items. *)

Inductive item : Type :=
| PlainItem (p : name_pair)
| FromItem (k : from_key) (p : name_pair).

Definition from_items (kv : from_key * list name_pair) : list item :=
  map (FromItem (fst kv)) (snd kv).

Definition items (self : ImpSorter) : list item :=
  flat_map from_items (from_imports self) ++ map PlainItem (imports self).

(** The node [new_nodes] builds for an item. *)
Definition node_of_item (i : item) : node :=
  match i with
  | PlainItem p => Import 0 [mk_alias (fst p) (snd p)]
  | FromItem k p => ImportFrom 0 (snd k) [mk_alias (fst p) (snd p)] (fst k)
  end.

(** The items a node contributes when it is visited. *)
Fixpoint node_items (n : node) : list item :=
  match n with
  | Import col names =>
      if (col =? 0)%nat then map PlainItem (pairs_of names) else []
  | ImportFrom col module names level =>
      if (col =? 0)%nat then map (FromItem (level, module)) (pairs_of names) else []
  | Stmt _ body => flat_map node_items body
  end.

(** [holds d k p]: the set under key [k] of [d] has the element [p]. *)
Definition holds (d : list (from_key * list name_pair)) (k : from_key) (p : name_pair)
  : Prop :=
  exists names, In (k, names) d /\ In p names.

(** The sets hold no element twice and the dictionary no key twice. *)
Definition wf (self : ImpSorter) : Prop :=
  NoDup (imports self) /\
  NoDup (map fst (from_imports self)) /\
  Forall (fun kv => NoDup (snd kv)) (from_imports self).

(** Two representations of one set, and of one dictionary of sets: the same
    contents, iterated in any two orders. *)
Definition same_dict (d1 d2 : list (from_key * list name_pair)) : Prop :=
  exists d, Permutation d1 d /\
            Forall2 (fun x y => fst x = fst y /\ Permutation (snd x) (snd y)) d d2.

Definition reordering (a b : ImpSorter) : Prop :=
  Permutation (imports a) (imports b) /\ same_dict (from_imports a) (from_imports b).

(** Induction on nodes, with the hypothesis for every child. *)
Section NodeInduction.
Variable P : node -> Prop.
Hypothesis P_Import : forall col names, P (Import col names).
Hypothesis P_ImportFrom : forall col module names level,
  P (ImportFrom col module names level).
Hypothesis P_Stmt : forall col body, Forall P body -> P (Stmt col body).

Fixpoint node_induction (n : node) : P n :=
  match n with
  | Import col names => P_Import col names
  | ImportFrom col module names level => P_ImportFrom col module names level
  | Stmt col body =>
      P_Stmt col body
        ((fix children (l : list node) : Forall P l :=
            match l with
            | [] => Forall_nil P
            | x :: l' => Forall_cons x (node_induction x) (children l')
            end) body)
  end.
End NodeInduction.

(** The entry [new_nodes] appends for an item. *)
Definition item_entry (env : Env) (i : item) : result entry :=
  keyed env (node_of_item i).

(** ** Vocabulary of the statements below *)

(** The import nodes the collector keeps, in visiting order. *)
Fixpoint collected (n : node) : list node :=
  match n with
  | Import col _ => if (col =? 0)%nat then [n] else []
  | ImportFrom col _ _ _ => if (col =? 0)%nat then [n] else []
  | Stmt _ body => flat_map collected body
  end.

(** The module name a declaration is classified by, when it has one. *)
Definition class_name (n : node) : option string :=
  match n with
  | Import _ (a :: _) => Some (name a)
  | ImportFrom _ (Some m) _ _ => Some m
  | _ => None
  end.

(** [is_root r s]: [r] is the part of [s] before its first dot. *)
Definition has_dot (s : string) : Prop := In "."%char (list_ascii_of_string s).

Definition is_root (r s : string) : Prop :=
  ~ has_dot r /\ (s = r \/ exists rest, s = (r ++ "." ++ rest)%string).

(** The lines [write_sorted] prints for a node. *)
Definition node_lines (n : node) : list string :=
  match n with
  | Import _ names => [("import " ++ all_names names)%string]
  | ImportFrom _ module names level =>
      [("from " ++ str_mul "." level ++ format_opt module
        ++ " import " ++ all_names names)%string]
  | Stmt _ _ => []
  end.

Definition key3_dec (a b : Z * Z * Z) : {a = b} + {a <> b}.
Proof. repeat decide equality. Defined.

(** The blank line between two entries that follow each other. *)
Definition separator (prev cur : entry) : list string :=
  if key3_dec (key3 (fst prev)) (key3 (fst cur)) then [] else [EmptyString].

(** The lines of a rendered sequence: the first entry, then every next
    entry behind its separator. *)
Definition expected_lines (entries : list entry) : list string :=
  match entries with
  | [] => []
  | first :: rest =>
      node_lines (snd first) ++
      flat_map (fun pc => separator (fst pc) (snd pc) ++ node_lines (snd (snd pc)))
               (combine entries rest)
  end.

(** The sequence [write_sorted] iterates over. *)
Definition sorted_nodes (env : Env) (self : ImpSorter) : result (list entry) :=
  nodes <- new_nodes env self ;; sorted nodes.

(** A sample module and the state collected from it, iterated backwards. *)
Definition sample_body : list node :=
  [imp "sys"; imp "re"; frm 0 "os" "path"; frm 0 "os" "getcwd"; frm 1 "models" "User"].

Definition sample_state_reversed : ImpSorter := {|
  original_nodes := [];
  imports := [("re", None); ("sys", None)];
  from_imports := [((1, Some "models"), [("User", None)]);
                   ((0, Some "os"), [("getcwd", None); ("path", None)])]
|}.

(** ** Vocabulary of the further properties *)

(** The three fields of the key that are read off the node alone. *)
Definition kind_field (n : node) : Z :=
  match n with
  | Import _ _ => 0
  | _ => 1
  end.

Definition name_field (n : node) : list (option string) :=
  match n with
  | Import _ (a :: _) => [Some (name a); asname a]
  | ImportFrom _ module _ _ => [module]
  | _ => []
  end.

Definition from_names_field (n : node) : option (list string) :=
  match n with
  | ImportFrom _ _ names _ => Some (map name names)
  | _ => None
  end.

(** The rank triple of a root segment: the [if]/[elif] chain of
    [_node_sort_key]. *)
Definition ranks (env : Env) (r : string) : result (Z * Z * Z) :=
  if (r =? "__future__")%string then Ok (0, 1, 1)%Z
  else if in_dec string_dec r (stdlibs env) then Ok (1, 0, 1)%Z
  else tp <- is_thirdparty env r ;;
       if tp then Ok (1, 1, 0)%Z else Ok (1, 1, 1)%Z.

(** The four groups, in the order of their rank triples. *)
Definition group_index (t : Z * Z * Z) : nat :=
  if key3_dec t (0, 1, 1)%Z then 0
  else if key3_dec t (1, 0, 1)%Z then 1
  else if key3_dec t (1, 1, 0)%Z then 2
  else 3.

(** The order of two statements of one group: plain imports by module name,
    then alias; from-imports behind them, by module name, then imported
    name. *)
Definition within_group_order (a b : node) : Prop :=
  match a, b with
  | Import _ [x], Import _ [y] =>
      String.ltb (name x) (name y) = true \/
      (name x = name y /\
       exists p q, asname x = Some p /\ asname y = Some q /\ String.ltb p q = true)
  | Import _ _, ImportFrom _ _ _ _ => True
  | ImportFrom _ _ _ _, Import _ _ => False
  | ImportFrom _ (Some m) [x] _, ImportFrom _ (Some m') [y] _ =>
      String.ltb m m' = true \/ (m = m' /\ String.ltb (name x) (name y) = true)
  | _, _ => True
  end.

(** A statement as [write_sorted] prints it: one name, and a module name
    when it is a from-import. *)
Definition single_name (n : node) : Prop :=
  (exists a, n = Import 0 [a]) \/
  (exists m a level, n = ImportFrom 0 (Some m) [a] level).

(** The probe of the search path fails with [ImportError] only. *)
Definition probe_fails_softly (env : Env) : Prop :=
  forall m e, find_module env m (python_paths env) = Raise e -> e = ImportError.

(** No two collected items that the sort cannot tell apart: a module
    imported both with and without an alias, or one name imported twice
    from modules of the same name (at two levels, or under two aliases). *)
Definition no_clash (its : list item) : Prop :=
  (forall m a b, In (PlainItem (m, a)) its -> In (PlainItem (m, b)) its ->
                 a = b \/ (a <> None /\ b <> None)) /\
  (forall k k' x a a', In (FromItem k (x, a)) its -> In (FromItem k' (x, a')) its ->
                       snd k = snd k' -> k = k' /\ a = a') /\
  (forall k p, In (FromItem k p) its -> snd k <> None).

(** A comparison that raises nothing but [TypeError]. *)
Class PyOrdRaises (A : Type) `{PyOrd A} : Prop :=
  py_lt_raises : forall (a b : A) (e : exn), py_lt a b = Raise e -> e = TypeError.

(** An environment whose probe fails with [ImportError] only. *)
Definition lenient_env : Env := {|
  stdmodules := ["os"; "sys"; "re"];
  builtin_module_names := ["sys"; "time"];
  sys_path := [""; "/usr/lib/python3/site-packages"];
  find_module m _ := if (m =? "requests")%string then Ok tt else Raise ImportError
|}.

(** * Properties *)

Example run_sample :
  run sample_env
    [imp "sys"; frm 0 "os" "path"; imp "requests"; frm 0 "os" "getcwd"; imp "itertools"]
  = Ok (unlines ["import itertools"; "import sys"; "from os import getcwd";
                 "from os import path"; ""; "import requests"]).
Proof. vm_compute. reflexivity. Qed.

(** ** The result monad *)

Lemma bind_Ok {A B : Type} (r : result A) (k : A -> result B) (b : B) :
  bind r k = Ok b -> exists a, r = Ok a /\ k a = Ok b.
Proof. destruct r as [a|e]; simpl; intros Hk; [eauto | discriminate]. Qed.

Ltac inv_bind H :=
  let a := fresh "a" in
  let Ha := fresh "H" a in
  apply bind_Ok in H; destruct H as (a & Ha & H).

Lemma mapM_Forall2 {A B : Type} (f : A -> result B) (l : list A) (r : list B) :
  mapM f l = Ok r <-> Forall2 (fun x y => f x = Ok y) l r.
Proof.
  revert r; induction l as [|x l IH]; intros r; simpl.
  - split; intros H; [injection H as <-; constructor | inversion H; reflexivity].
  - split; intros H.
    + inv_bind H. inv_bind H. injection H as <-.
      constructor; [assumption | now apply IH].
    + inversion H as [|? y ? ys Hx Hl]; subst.
      rewrite Hx; simpl. apply IH in Hl. rewrite Hl; reflexivity.
Qed.

Lemma py_lt_irrefl {A : Type} `{PyOrdLaws A} (a : A) : py_lt a a <> Ok true.
Proof. intros Ha. pose proof (py_lt_true _ _ Ha). congruence. Qed.

Lemma py_eq_refl {A : Type} `{PyOrdLaws A} (a : A) : py_eq a a = true.
Proof. now apply py_eq_spec. Qed.

Lemma py_eq_false {A : Type} `{PyOrdLaws A} (a b : A) : py_eq a b = false <-> a <> b.
Proof.
  split.
  - intros Hf Heq. apply py_eq_spec in Heq. congruence.
  - intros Hne. destruct (py_eq a b) eqn:E; [|reflexivity].
    apply py_eq_spec in E. contradiction.
Qed.

#[export] Instance PyOrdLaws_int : PyOrdLaws Z.
Proof.
  split; simpl.
  - intros a b. apply Z.eqb_eq.
  - intros a b c Hab Hbc. injection Hab as Hab. injection Hbc as Hbc. f_equal. lia.
  - intros a b Hab. injection Hab as Hab.
    destruct (Z.eq_dec a b); [now left | right; f_equal; lia].
  - intros a b Hab. injection Hab as Hab. f_equal. lia.
Qed.

Lemma string_ltb_lt (a b : string) : String.ltb a b = true <-> String_as_OT.lt a b.
Proof.
  unfold String.ltb, String_as_OT.lt.
  change (String_as_OT.compare a b) with (String.compare a b).
  destruct (String.compare a b); split; congruence.
Qed.

#[export] Instance PyOrdLaws_str : PyOrdLaws string.
Proof.
  split; simpl.
  - intros a b. apply String.eqb_eq.
  - intros a b c Hab Hbc. injection Hab as Hab. injection Hbc as Hbc. f_equal.
    apply string_ltb_lt. apply string_ltb_lt in Hab, Hbc.
    eapply String_as_OT.lt_strorder; eassumption.
  - intros a b Hab. injection Hab as Hab. unfold String.ltb in *.
    rewrite (String.compare_antisym b a).
    destruct (String.compare a b) eqn:E; simpl; try discriminate.
    + left. now apply String.compare_eq_iff.
    + now right.
  - intros a b Hab. injection Hab as Hab. unfold String.ltb in *.
    rewrite (String.compare_antisym b a).
    destruct (String.compare a b); simpl; try discriminate. reflexivity.
Qed.

#[export] Instance PyOrdLaws_option (A : Type) `{PyOrdLaws A} : PyOrdLaws (option A).
Proof.
  split.
  - intros [a|] [b|]; simpl; try (split; congruence).
    rewrite py_eq_spec. split; congruence.
  - intros [a|] [b|] [c|]; simpl; try discriminate. apply py_lt_trans.
  - intros [a|] [b|]; simpl; try discriminate.
    intros Hab. destruct (py_lt_false _ _ Hab); [left; congruence | now right].
  - intros [a|] [b|]; simpl; try discriminate. apply py_lt_true.
Qed.

#[export] Instance PyOrdLaws_tuple (A B : Type) `{PyOrdLaws A} `{PyOrdLaws B} :
  PyOrdLaws (A * B).
Proof.
  split.
  - intros [a b] [a' b']; simpl. rewrite andb_true_iff, !py_eq_spec.
    split; [intros []; congruence | intros [= -> ->]; auto].
  - intros [a b] [a' b'] [a'' b'']; simpl.
    destruct (py_eq a a') eqn:E1; destruct (py_eq a' a'') eqn:E2.
    + apply py_eq_spec in E1, E2. subst. rewrite py_eq_refl.
      destruct (py_eq b b') eqn:F1; [discriminate|].
      destruct (py_eq b' b'') eqn:F2; [discriminate|].
      intros Hb Hb'.
      destruct (py_eq b b'') eqn:F3.
      * apply py_eq_spec in F3; subst. apply py_lt_true in Hb. congruence.
      * eapply py_lt_trans; eassumption.
    + apply py_eq_spec in E1. subst. rewrite E2. auto.
    + apply py_eq_spec in E2. subst. rewrite E1. auto.
    + intros Ha Ha'.
      destruct (py_eq a a'') eqn:E3.
      * apply py_eq_spec in E3; subst. apply py_lt_true in Ha. congruence.
      * eapply py_lt_trans; eassumption.
  - intros [a b] [a' b']; simpl.
    destruct (py_eq a a') eqn:E1.
    + apply py_eq_spec in E1. subst. rewrite py_eq_refl.
      destruct (py_eq b b') eqn:F1.
      * apply py_eq_spec in F1. subst. now left.
      * assert (py_eq b' b = false) as ->.
        { apply py_eq_false. apply py_eq_false in F1. congruence. }
        intros Hb. destruct (py_lt_false _ _ Hb); [left; congruence | now right].
    + assert (py_eq a' a = false) as ->.
      { apply py_eq_false. apply py_eq_false in E1. congruence. }
      intros Ha. destruct (py_lt_false _ _ Ha); [|now right].
      subst. rewrite py_eq_refl in E1. discriminate.
  - intros [a b] [a' b']; simpl.
    destruct (py_eq a a') eqn:E1.
    + apply py_eq_spec in E1. subst. rewrite py_eq_refl.
      destruct (py_eq b b') eqn:F1; [discriminate|].
      assert (py_eq b' b = false) as ->.
      { apply py_eq_false. apply py_eq_false in F1. congruence. }
      apply py_lt_true.
    + assert (py_eq a' a = false) as ->.
      { apply py_eq_false. apply py_eq_false in E1. congruence. }
      apply py_lt_true.
Qed.

Lemma py_eq_sym_false {A : Type} `{PyOrdLaws A} (a b : A) :
  py_eq a b = false -> py_eq b a = false.
Proof. rewrite !py_eq_false. congruence. Qed.

#[export] Instance PyOrdLaws_list (A : Type) `{PyOrdLaws A} : PyOrdLaws (list A).
Proof.
  split.
  - cbn [py_eq py_lt PyOrd_list]. induction a as [|x a IH]; intros [|y b]; simpl; try (split; congruence).
    rewrite andb_true_iff, py_eq_spec, IH. split; [intros []; congruence | intros [= -> ->]; auto].
  - cbn [py_eq py_lt PyOrd_list]. induction a as [|x a IH]; intros [|y b] [|z c]; simpl; try discriminate; auto.
    destruct (py_eq x y) eqn:E1; destruct (py_eq y z) eqn:E2.
    + apply py_eq_spec in E1, E2. subst. rewrite py_eq_refl. apply IH.
    + apply py_eq_spec in E1. subst. rewrite E2. auto.
    + apply py_eq_spec in E2. subst. rewrite E1. auto.
    + intros Hx Hy.
      destruct (py_eq x z) eqn:E3.
      * apply py_eq_spec in E3; subst. apply py_lt_true in Hx. congruence.
      * eapply py_lt_trans; eassumption.
  - cbn [py_eq py_lt PyOrd_list]. induction a as [|x a IH]; intros [|y b]; simpl; try discriminate; auto.
    destruct (py_eq x y) eqn:E1.
    + apply py_eq_spec in E1. subst. rewrite py_eq_refl.
      intros Hl. destruct (IH _ Hl); [left; congruence | now right].
    + rewrite (py_eq_sym_false _ _ E1).
      intros Hx. destruct (py_lt_false _ _ Hx); [|now right].
      subst. rewrite py_eq_refl in E1. discriminate.
  - cbn [py_eq py_lt PyOrd_list]. induction a as [|x a IH]; intros [|y b]; simpl; try discriminate; auto.
    destruct (py_eq x y) eqn:E1.
    + apply py_eq_spec in E1. subst. rewrite py_eq_refl. apply IH.
    + rewrite (py_eq_sym_false _ _ E1). apply py_lt_true.
Qed.

(** ** [sorted] is a function of the set of its elements

    In this section [lt] is an arbitrary comparison that may raise.  Under
    the order laws, a call of [sorted] that returns has compared, directly or
    through transitivity, every two elements of its argument; so it returns,
    with the same list, on every rearrangement of that argument. *)

Section SortedPermutation.
Context {A : Type} `{PyOrd A}.

(** [distinct a b] holds of any two elements at different positions of
    the lists that are sorted. *)
Variable distinct : A -> A -> Prop.
Hypothesis distinct_sym : forall a b, distinct a b -> distinct b a.
Hypothesis lt_trans : forall a b c : A,
  py_lt a b = Ok true -> py_lt b c = Ok true -> py_lt a c = Ok true.
Hypothesis lt_false : forall a b : A,
  py_lt a b = Ok false -> distinct a b -> py_lt b a = Ok true.
Hypothesis lt_true : forall a b : A,
  py_lt a b = Ok true -> py_lt b a = Ok false.

Let R (a b : A) : Prop := py_lt a b = Ok true.

Lemma R_irrefl (a : A) : ~ R a a.
Proof. unfold R. intros Ha. pose proof (lt_true _ _ Ha). congruence. Qed.

Lemma insert_Permutation (x : A) (l s : list A) :
  insert x l = Ok s -> Permutation (x :: l) s.
Proof.
  revert s; induction l as [|y l IH]; intros s; simpl.
  - intros [= <-]. reflexivity.
  - intros Hi. inv_bind Hi. destruct a.
    + injection Hi as <-. reflexivity.
    + inv_bind Hi. injection Hi as <-.
      rewrite perm_swap. constructor. now apply IH.
Qed.

Lemma insert_sorted (x : A) (l s : list A) :
  StronglySorted R l ->
  Forall (distinct x) l ->
  insert x l = Ok s -> StronglySorted R s.
Proof.
  revert s; induction l as [|y l IH]; intros s Hs Hd; simpl.
  - intros [= <-]. repeat constructor.
  - intros Hi. inv_bind Hi. inversion Hs as [|? ? Hs' Hy]; subst.
    inversion Hd as [|? ? Hxy Hd']; subst.
    destruct a.
    + injection Hi as <-. constructor; [assumption|].
      constructor; [exact Ha|].
      eapply Forall_impl; [|exact Hy]. intros z Hz. eapply lt_trans; eassumption.
    + inv_bind Hi. injection Hi as <-.
      constructor; [now apply IH|].
      apply insert_Permutation in Ha0.
      eapply Permutation_Forall; [exact Ha0|].
      constructor; [|assumption]. now apply lt_false.
Qed.

Lemma sorted_from_Raise (l : list A) (e : exn) :
  sorted_from (Raise e) l = Raise e.
Proof. induction l as [|x l IH]; simpl; [reflexivity | exact IH]. Qed.

Lemma sorted_from_cons (x : A) (l : list A) (acc : list A) :
  sorted_from (Ok acc) (x :: l) = sorted_from (insert x acc) l.
Proof. reflexivity. Qed.

Lemma sorted_from_inv (l acc s : list A) :
  StronglySorted R acc ->
  ForallOrdPairs distinct l ->
  (forall x y, In x l -> In y acc -> distinct x y) ->
  sorted_from (Ok acc) l = Ok s ->
  StronglySorted R s /\ Permutation (acc ++ l) s.
Proof.
  revert acc; induction l as [|x l IH]; intros acc Hs Hpairs Hd; simpl.
  - intros [= <-]. rewrite app_nil_r. split; [assumption | reflexivity].
  - fold (sorted_from (insert x acc) l).
    destruct (insert x acc) as [acc'|e] eqn:Hi;
      [|rewrite sorted_from_Raise; discriminate].
    intros Hl. inversion Hpairs as [|? ? Hx Hpairs']; subst.
    pose proof (insert_Permutation _ _ _ Hi) as Hperm.
    apply IH in Hl.
    + destruct Hl as [Hss Hp]. split; [assumption|].
      rewrite <- Hp, <- Hperm. simpl. symmetry. apply Permutation_middle.
    + eapply insert_sorted; [exact Hs | | exact Hi].
      apply Forall_forall. intros y Hy. apply Hd; [now left | assumption].
    + assumption.
    + intros z y Hz Hy.
      apply (Permutation_in _ (Permutation_sym Hperm)) in Hy.
      destruct Hy as [<- | Hy].
      * apply distinct_sym. rewrite Forall_forall in Hx. now apply Hx.
      * apply Hd; [now right | assumption].
Qed.

Lemma sorted_inv (l s : list A) :
  ForallOrdPairs distinct l ->
  sorted l = Ok s -> StronglySorted R s /\ Permutation l s.
Proof.
  intros Hpairs Hs.
  apply (sorted_from_inv l [] s); [constructor | assumption | | assumption].
  intros x y _ [].
Qed.

Lemma StronglySorted_NoDup (s : list A) : StronglySorted R s -> NoDup s.
Proof.
  induction 1 as [|a s Hs IH Ha]; constructor; [|assumption].
  intros Hin. rewrite Forall_forall in Ha. exact (R_irrefl a (Ha _ Hin)).
Qed.

Lemma StronglySorted_total (s : list A) :
  StronglySorted R s ->
  forall a b, In a s -> In b s -> a <> b -> R a b \/ R b a.
Proof.
  induction 1 as [|c s Hs IH Hc]; intros a b Ha Hb Hne; [destruct Ha|].
  rewrite Forall_forall in Hc.
  destruct Ha as [<- | Ha]; destruct Hb as [<- | Hb]; auto; congruence.
Qed.

Lemma StronglySorted_unique (s s' : list A) :
  StronglySorted R s -> StronglySorted R s' -> Permutation s s' -> s = s'.
Proof.
  intros Hs; revert s'; induction Hs as [|a s Hs IH Ha]; intros s' Hs' Hp.
  - apply Permutation_nil in Hp. now subst.
  - destruct Hs' as [|a' s' Hs' Ha'].
    + apply Permutation_sym, Permutation_nil in Hp. discriminate.
    + rewrite Forall_forall in Ha, Ha'.
      assert (a = a') as <-.
      { assert (Hin : In a (a' :: s')) by (eapply Permutation_in; [exact Hp | now left]).
        assert (Hin' : In a' (a :: s))
          by (eapply Permutation_in; [exact (Permutation_sym Hp) | now left]).
        destruct Hin as [-> | Hin]; [reflexivity|].
        destruct Hin' as [-> | Hin']; [reflexivity|].
        exfalso. apply (R_irrefl a).
        unfold R. eapply lt_trans; [apply Ha; exact Hin' | apply Ha'; exact Hin]. }
      f_equal. apply IH; [assumption|].
      eapply Permutation_cons_inv; exact Hp.
Qed.

Lemma insert_total (x : A) (l : list A) :
  (forall y, In y l -> R x y \/ R y x) -> exists s, insert x l = Ok s.
Proof.
  induction l as [|y l IH]; intros Hc; simpl; [eauto|].
  destruct (Hc y (or_introl eq_refl)) as [Hxy | Hyx].
  - unfold R in Hxy. rewrite Hxy. simpl. eauto.
  - rewrite (lt_true _ _ Hyx). simpl.
    destruct IH as [s Hs]; [intros z Hz; apply Hc; now right|].
    rewrite Hs. simpl. eauto.
Qed.

Lemma sorted_from_total (l acc : list A) :
  NoDup (acc ++ l) ->
  (forall a b, In a (acc ++ l) -> In b (acc ++ l) -> a <> b -> R a b \/ R b a) ->
  exists s, sorted_from (Ok acc) l = Ok s.
Proof.
  revert acc; induction l as [|x l IH]; intros acc Hnd Hc; simpl; [eauto|].
  fold (sorted_from (insert x acc) l).
  destruct (insert_total x acc) as [acc' Hi].
  { intros y Hy. apply Hc.
    - apply in_or_app. right. now left.
    - apply in_or_app. now left.
    - intros <-. apply NoDup_remove_2 in Hnd. apply Hnd. apply in_or_app. now left. }
  rewrite Hi. pose proof (insert_Permutation _ _ _ Hi) as Hp.
  assert (Hp' : Permutation (acc ++ x :: l) (acc' ++ l)).
  { rewrite <- Hp. symmetry. apply Permutation_middle. }
  apply IH.
  - eapply Permutation_NoDup; eassumption.
  - intros a b Ha Hb. apply Hc; eapply Permutation_in;
      try (apply Permutation_sym; exact Hp'); assumption.
Qed.

(** A call that returns on [l] returns on every rearrangement of [l],
    with the same list. *)
Lemma sorted_Permutation (l l' s : list A) :
  ForallOrdPairs distinct l ->
  ForallOrdPairs distinct l' ->
  Permutation l l' ->
  sorted l = Ok s -> sorted l' = Ok s.
Proof.
  intros Hd Hd' Hp Hs.
  destruct (sorted_inv _ _ Hd Hs) as [Hss Hps].
  assert (Hp' : Permutation s l') by (rewrite <- Hps; exact Hp).
  destruct (sorted_from_total l' []) as [s' Hs'].
  - simpl. eapply Permutation_NoDup; [exact Hp' | now apply StronglySorted_NoDup].
  - simpl. intros a b Ha Hb. apply (StronglySorted_total s Hss);
      eapply Permutation_in; try (apply Permutation_sym; exact Hp'); assumption.
  - fold (sorted l') in Hs'. rewrite Hs'. f_equal.
    destruct (sorted_inv _ _ Hd' Hs') as [Hss' Hps'].
    symmetry. apply StronglySorted_unique; [assumption | assumption|].
    rewrite <- Hps'. exact Hp'.
Qed.
End SortedPermutation.

Lemma NoDup_ForallOrdPairs {A : Type} (l : list A) :
  NoDup l -> ForallOrdPairs (fun a b => a <> b) l.
Proof.
  induction 1 as [|a l Ha Hl IH]; constructor; [|assumption].
  apply Forall_forall. intros b Hb ->. contradiction.
Qed.

Lemma ForallOrdPairs_True {A : Type} (l : list A) :
  ForallOrdPairs (fun _ _ => True) l.
Proof.
  induction l as [|a l IH]; constructor; [|assumption].
  apply Forall_forall. auto.
Qed.

(** [sorted(names)] on a set of name pairs. *)
Lemma sorted_pairs_Permutation (l l' s : list name_pair) :
  NoDup l -> Permutation l l' -> sorted l = Ok s -> sorted l' = Ok s.
Proof.
  intros Hnd Hp.
  apply (sorted_Permutation (fun a b => a <> b)); auto.
  - apply py_lt_trans.
  - intros a b Hab Hne. destruct (py_lt_false _ _ Hab); [contradiction | assumption].
  - apply py_lt_true.
  - now apply NoDup_ForallOrdPairs.
  - apply NoDup_ForallOrdPairs. eapply Permutation_NoDup; eassumption.
Qed.

Lemma sorted_pairs_inv (l s : list name_pair) :
  NoDup l -> sorted l = Ok s -> Permutation l s.
Proof.
  intros Hnd Hs.
  apply (sorted_inv (fun a b => a <> b)) in Hs; [tauto | auto | | | ].
  - apply py_lt_trans.
  - intros a b Hab Hne. destruct (py_lt_false _ _ Hab); [contradiction | assumption].
  - now apply NoDup_ForallOrdPairs.
Qed.

(** The comparison of two entries is the comparison of their keys, and
    raises when the keys are equal. *)
Lemma entry_lt_key (e1 e2 : entry) :
  py_lt e1 e2 = if py_eq (fst e1) (fst e2) then Raise TypeError else py_lt (fst e1) (fst e2).
Proof. reflexivity. Qed.

Lemma entry_lt_true (e1 e2 : entry) :
  py_lt e1 e2 = Ok true <-> py_lt (fst e1) (fst e2) = Ok true.
Proof.
  rewrite entry_lt_key. destruct (py_eq (fst e1) (fst e2)) eqn:E; [|tauto].
  apply py_eq_spec in E. rewrite E. split; [discriminate|].
  intros Hk. exfalso. exact (py_lt_irrefl _ Hk).
Qed.

Lemma entry_lt_trans (a b c : entry) :
  py_lt a b = Ok true -> py_lt b c = Ok true -> py_lt a c = Ok true.
Proof. rewrite !entry_lt_true. apply py_lt_trans. Qed.

Lemma entry_lt_false (a b : entry) :
  py_lt a b = Ok false -> py_lt b a = Ok true.
Proof.
  rewrite entry_lt_true, entry_lt_key.
  destruct (py_eq (fst a) (fst b)) eqn:E; [discriminate|].
  intros Hk. destruct (py_lt_false _ _ Hk) as [Heq | Hlt]; [|assumption].
  rewrite Heq, py_eq_refl in E. discriminate.
Qed.

Lemma entry_lt_flip (a b : entry) :
  py_lt a b = Ok true -> py_lt b a = Ok false.
Proof.
  intros Hab. pose proof Hab as Hk. apply entry_lt_true in Hk.
  rewrite entry_lt_key.
  destruct (py_eq (fst b) (fst a)) eqn:E.
  - apply py_eq_spec in E. rewrite E in Hk. exfalso. exact (py_lt_irrefl _ Hk).
  - now apply py_lt_true.
Qed.

(** [sorted(self.new_nodes())] *)
Lemma sorted_entries_Permutation (l l' s : list entry) :
  Permutation l l' -> sorted l = Ok s -> sorted l' = Ok s.
Proof.
  apply (sorted_Permutation (fun _ _ => True)); auto using ForallOrdPairs_True.
  - apply entry_lt_trans.
  - intros a b Hab _. now apply entry_lt_false.
  - apply entry_lt_flip.
Qed.

Lemma sorted_entries_inv (l s : list entry) :
  sorted l = Ok s ->
  StronglySorted (fun a b => py_lt a b = Ok true) s /\ Permutation l s.
Proof.
  apply (sorted_inv (fun _ _ => True)); auto using ForallOrdPairs_True.
  - apply entry_lt_trans.
  - intros a b Hab _. now apply entry_lt_false.
Qed.

(** ** The collector keeps sets *)

Lemma set_add_In (s : list name_pair) (x y : name_pair) :
  In y (set_add s x) <-> In y s \/ y = x.
Proof.
  unfold set_add. destruct (in_dec name_pair_dec x s) as [Hin | Hnin].
  - split; [auto | intros [H | ->]; assumption].
  - rewrite in_app_iff. simpl. intuition congruence.
Qed.

Lemma set_add_NoDup (s : list name_pair) (x : name_pair) :
  NoDup s -> NoDup (set_add s x).
Proof.
  intros Hs. unfold set_add. destruct (in_dec name_pair_dec x s) as [Hin | Hnin]; [assumption|].
  apply NoDup_app; [assumption | repeat constructor; intros [] |].
  intros a Ha [<- | []]. contradiction.
Qed.

Lemma set_update_In (xs s : list name_pair) (y : name_pair) :
  In y (set_update s xs) <-> In y s \/ In y xs.
Proof.
  unfold set_update. revert s; induction xs as [|x xs IH]; intros s; simpl; [tauto|].
  rewrite IH, set_add_In. intuition congruence.
Qed.

Lemma set_update_NoDup (xs s : list name_pair) :
  NoDup s -> NoDup (set_update s xs).
Proof.
  unfold set_update. revert s; induction xs as [|x xs IH]; intros s Hs; simpl; [assumption|].
  apply IH. now apply set_add_NoDup.
Qed.

Lemma dict_update_keys (d : list (from_key * list name_pair)) k xs k' :
  In k' (map fst (dict_update d k xs)) <-> In k' (map fst d) \/ k' = k.
Proof.
  induction d as [|[k0 s] d IH]; simpl.
  - intuition congruence.
  - destruct (from_key_dec k k0) as [-> | Hne]; simpl.
    + intuition congruence.
    + rewrite IH. tauto.
Qed.

Lemma dict_update_NoDup_keys (d : list (from_key * list name_pair)) k xs :
  NoDup (map fst d) -> NoDup (map fst (dict_update d k xs)).
Proof.
  induction d as [|[k0 s] d IH]; simpl; intros Hd.
  - repeat constructor. intros [].
  - inversion Hd as [|? ? Hk0 Hd']; subst.
    destruct (from_key_dec k k0) as [-> | Hne]; simpl.
    + now constructor.
    + constructor; [|now apply IH].
      rewrite dict_update_keys. intros [H | H]; [contradiction | congruence].
Qed.

Lemma dict_update_NoDup_values (d : list (from_key * list name_pair)) k xs :
  Forall (fun kv => NoDup (snd kv)) d ->
  Forall (fun kv => NoDup (snd kv)) (dict_update d k xs).
Proof.
  induction d as [|[k0 s] d IH]; simpl; intros Hd.
  - repeat constructor. simpl. apply set_update_NoDup. constructor.
  - inversion Hd as [|? ? Hs Hd']; subst.
    destruct (from_key_dec k k0) as [-> | Hne]; constructor; simpl in *; auto.
    now apply set_update_NoDup.
Qed.

Lemma dict_update_holds (d : list (from_key * list name_pair)) k xs k' p :
  NoDup (map fst d) ->
  holds (dict_update d k xs) k' p <-> holds d k' p \/ (k' = k /\ In p xs).
Proof.
  unfold holds. induction d as [|[k0 s] d IH]; simpl; intros Hd.
  - split.
    + intros (names & [[= <- <-] | []] & Hp).
      apply set_update_In in Hp. destruct Hp as [[] | Hp]. auto.
    + intros [(names & [] & _) | [-> Hp]].
      eexists; split; [left; reflexivity|]. apply set_update_In. now right.
  - inversion Hd as [|? ? Hk0 Hd']; subst.
    destruct (from_key_dec k k0) as [-> | Hne]; simpl.
    + split.
      * intros (names & [[= <- <-] | Hin] & Hp).
        -- apply set_update_In in Hp. destruct Hp as [Hp | Hp]; [left | now right].
           exists s. auto.
        -- left. exists names. auto.
      * intros [(names & [[= <- <-] | Hin] & Hp) | [-> Hp]].
        -- eexists; split; [left; reflexivity|]. apply set_update_In. now left.
        -- exists names. auto.
        -- eexists; split; [left; reflexivity|]. apply set_update_In. now right.
    + specialize (IH Hd'). split.
      * intros (names & [[= <- <-] | Hin] & Hp).
        -- left. exists s. auto.
        -- destruct (proj1 IH) as [(names' & Hin' & Hp') | Hr]; [eauto | | now right].
           left. exists names'. auto.
      * intros [(names & [[= <- <-] | Hin] & Hp) | Hr].
        -- exists s. auto.
        -- destruct (proj2 IH) as (names' & Hin' & Hp'); [left; eauto|].
           exists names'. auto.
        -- destruct (proj2 IH) as (names' & Hin' & Hp'); [now right|].
           exists names'. auto.
Qed.

Lemma In_items_plain (self : ImpSorter) (p : name_pair) :
  In (PlainItem p) (items self) <-> In p (imports self).
Proof.
  unfold items. rewrite in_app_iff, in_flat_map, in_map_iff. split.
  - intros [(kv & _ & Hin) | (q & [= ->] & Hq)]; [|assumption].
    unfold from_items in Hin. apply in_map_iff in Hin. destruct Hin as (? & [=] & _).
  - intros Hp. right. eauto.
Qed.

Lemma In_items_from (self : ImpSorter) (k : from_key) (p : name_pair) :
  In (FromItem k p) (items self) <-> holds (from_imports self) k p.
Proof.
  unfold items, holds. rewrite in_app_iff, in_flat_map, in_map_iff. split.
  - intros [([k' names] & Hkv & Hin) | (q & [=] & _)].
    unfold from_items in Hin. simpl in Hin. apply in_map_iff in Hin.
    destruct Hin as (q & [= <- <-] & Hq). eauto.
  - intros (names & Hkv & Hp). left. exists (k, names). split; [assumption|].
    unfold from_items. simpl. now apply in_map.
Qed.

Lemma In_node_items_of_item (i j : item) :
  In j (node_items (node_of_item i)) <-> j = i.
Proof.
  destruct i as [[nm asnm] | [level module] [nm asnm]]; simpl; intuition congruence.
Qed.

Lemma In_pairs_of (names : list alias) (nm : string) (asnm : option string) :
  In (nm, asnm) (pairs_of names) <-> In (mk_alias nm asnm) names.
Proof.
  unfold pairs_of. rewrite in_map_iff. split.
  - intros ([nm' asnm'] & [= <- <-] & Hin). exact Hin.
  - intros Hin. exists (mk_alias nm asnm). auto.
Qed.

Lemma wf_init : wf init.
Proof. repeat split; constructor. Qed.

Lemma fold_visit_invariant (P : ImpSorter -> Prop) (body : list node) :
  Forall (fun n => forall self, P self -> P (visit self n)) body ->
  forall self, P self -> P (fold_left visit body self).
Proof.
  induction 1 as [|n body Hn Hbody IH]; intros self Hself; simpl; auto.
Qed.

Lemma visit_wf (n : node) (self : ImpSorter) : wf self -> wf (visit self n).
Proof.
  revert self. induction n as [col names | col module names level | col body IH]
    using node_induction; intros self Hwf; simpl.
  - unfold visit_Import. destruct (negb (col =? 0)%nat); [assumption|].
    destruct Hwf as (H1 & H2 & H3). repeat split; simpl; auto using set_update_NoDup.
  - unfold visit_ImportFrom. destruct (negb (col =? 0)%nat); [assumption|].
    destruct Hwf as (H1 & H2 & H3). repeat split; simpl;
      auto using dict_update_NoDup_keys, dict_update_NoDup_values.
  - now apply (fold_visit_invariant wf).
Qed.

Lemma visit_tree_wf (body : list node) : wf (visit_tree body).
Proof.
  unfold visit_tree. apply (fold_visit_invariant wf); [|apply wf_init].
  apply Forall_forall. intros n _ self. apply visit_wf.
Qed.

Lemma fold_visit_items (body : list node) :
  Forall (fun n => forall self i, wf self ->
            (In i (items (visit self n)) <-> In i (items self) \/ In i (node_items n)))
         body ->
  forall self i, wf self ->
    (In i (items (fold_left visit body self))
     <-> In i (items self) \/ In i (flat_map node_items body)).
Proof.
  induction 1 as [|n body Hn Hbody IH]; intros self i Hwf; simpl; [tauto|].
  rewrite IH by now apply visit_wf. rewrite Hn by assumption.
  rewrite in_app_iff. tauto.
Qed.

Lemma visit_items (n : node) (self : ImpSorter) (i : item) :
  wf self ->
  (In i (items (visit self n)) <-> In i (items self) \/ In i (node_items n)).
Proof.
  revert self i. induction n as [col names | col module names level | col body IH]
    using node_induction; intros self i Hwf; simpl.
  - unfold visit_Import. destruct (col =? 0)%nat; simpl; [|tauto].
    destruct i as [p | k p].
    + rewrite !In_items_plain. simpl. rewrite set_update_In, in_map_iff.
      split; [intros [H | H]; [now left | right; eauto] |].
      intros [H | (q & [= ->] & H)]; auto.
    + rewrite !In_items_from. simpl. rewrite in_map_iff.
      split; [auto | intros [H | (q & [=] & _)]; assumption].
  - unfold visit_ImportFrom. destruct (col =? 0)%nat; simpl; [|tauto].
    destruct i as [p | k p].
    + rewrite !In_items_plain. simpl. rewrite in_map_iff.
      split; [auto | intros [H | (q & [=] & _)]; assumption].
    + rewrite !In_items_from. simpl.
      rewrite dict_update_holds by apply Hwf. rewrite in_map_iff.
      split; (intros [H | H]; [now left | right]).
      * destruct H as [-> H]. eauto.
      * destruct H as (q & [= -> ->] & H). auto.
  - now apply fold_visit_items.
Qed.

Lemma visit_tree_items (body : list node) (i : item) :
  In i (items (visit_tree body)) <-> In i (flat_map node_items body).
Proof.
  unfold visit_tree. rewrite fold_visit_items.
  - simpl. tauto.
  - apply Forall_forall. intros n _ self j. apply visit_items.
  - apply wf_init.
Qed.

(** ** What [new_nodes] returns *)

Lemma mapM_ext {A B : Type} (f g : A -> result B) (l : list A) :
  (forall x, In x l -> f x = g x) -> mapM f l = mapM g l.
Proof.
  induction l as [|x l IH]; intros Hfg; simpl; [reflexivity|].
  rewrite Hfg by now left. rewrite IH; [reflexivity|].
  intros y Hy. apply Hfg. now right.
Qed.

Lemma mapM_total {A B : Type} (f : A -> result B) (l : list A) :
  (forall x, In x l -> exists y, f x = Ok y) -> exists r, mapM f l = Ok r.
Proof.
  induction l as [|x l IH]; intros Hf; simpl; [eauto|].
  destruct (Hf x) as [y Hy]; [now left|]. rewrite Hy. simpl.
  destruct IH as [r Hr]; [intros z Hz; apply Hf; now right|].
  rewrite Hr. simpl. eauto.
Qed.

Lemma mapM_In {A B : Type} (f : A -> result B) (l : list A) (r : list B) (x : A) :
  mapM f l = Ok r -> In x l -> exists y, f x = Ok y /\ In y r.
Proof.
  rewrite mapM_Forall2. induction 1 as [|a b l r Hab Hlr IH]; intros Hin; [destruct Hin|].
  destruct Hin as [<- | Hin].
  - exists b. split; [assumption | now left].
  - destruct (IH Hin) as (y & Hy & Hyr). exists y. split; [assumption | now right].
Qed.

Lemma Forall2_map_l {A B C : Type} (R : B -> C -> Prop) (f : A -> B)
  (l : list A) (r : list C) :
  Forall2 (fun x y => R (f x) y) l r -> Forall2 R (map f l) r.
Proof. induction 1; simpl; constructor; assumption. Qed.

Lemma from_nodes_eq (env : Env) (k : from_key) (names : list name_pair) :
  from_nodes env (k, names) =
  sn <- sorted names ;; mapM (fun p => item_entry env (FromItem k p)) sn.
Proof.
  destruct k as [level module]. unfold from_nodes.
  destruct (sorted names) as [sn|e]; simpl; [|reflexivity].
  apply mapM_ext. intros [nm asnm] _. reflexivity.
Qed.

Lemma import_node_eq (env : Env) (p : name_pair) :
  import_node env p = item_entry env (PlainItem p).
Proof. destruct p as [nm asnm]. reflexivity. Qed.

Lemma keyed_Ok (env : Env) (n : node) (e : entry) :
  keyed env n = Ok e <-> _node_sort_key env n = Ok (fst e) /\ snd e = n.
Proof.
  unfold keyed. destruct (_node_sort_key env n) as [k|x]; simpl.
  - destruct e as [k' n']. simpl. split; [intros [= <- <-]; auto | intros [[= ->] ->]; auto].
  - split; [discriminate | intros [[=] _]].
Qed.

Lemma node_of_item_inj (i j : item) : node_of_item i = node_of_item j -> i = j.
Proof.
  destruct i as [[nm asnm] | [level module] [nm asnm]];
    destruct j as [[nm' asnm'] | [level' module'] [nm' asnm']]; simpl; congruence.
Qed.

Lemma from_items_NoDup (d : list (from_key * list name_pair)) :
  NoDup (map fst d) -> Forall (fun kv => NoDup (snd kv)) d ->
  NoDup (flat_map from_items d).
Proof.
  induction d as [|[k names] d IH]; simpl; intros Hk Hv; [constructor|].
  inversion Hk as [|? ? Hnk Hk']; subst. inversion Hv as [|? ? Hn Hv']; subst.
  apply NoDup_app.
  - unfold from_items. simpl in *.
    apply Injective_map_NoDup; [|assumption]. intros p q [=]. assumption.
  - now apply IH.
  - unfold from_items at 1. simpl. intros i Hi Hin.
    apply in_map_iff in Hi. destruct Hi as (p & <- & Hp).
    apply in_flat_map in Hin. destruct Hin as ([k' names'] & Hkv & Hin).
    unfold from_items in Hin. simpl in Hin. apply in_map_iff in Hin.
    destruct Hin as (q & [= <- <-] & Hq).
    apply Hnk. apply in_map_iff. exists (k', names'). auto.
Qed.

Lemma items_NoDup (self : ImpSorter) : wf self -> NoDup (items self).
Proof.
  intros (H1 & H2 & H3). unfold items. apply NoDup_app.
  - now apply from_items_NoDup.
  - apply Injective_map_NoDup; [|assumption]. intros p q [=]. assumption.
  - intros i Hi Hin. apply in_flat_map in Hi. destruct Hi as (kv & _ & Hi).
    unfold from_items in Hi. apply in_map_iff in Hi. destruct Hi as (p & <- & _).
    apply in_map_iff in Hin. destruct Hin as (q & [=] & _).
Qed.

Lemma from_part_inv (env : Env) (d : list (from_key * list name_pair))
  (froms : list (list entry)) :
  Forall (fun kv => NoDup (snd kv)) d ->
  mapM (from_nodes env) d = Ok froms ->
  exists its, Permutation its (flat_map from_items d) /\
              Forall2 (fun i e => item_entry env i = Ok e) its (List.concat froms).
Proof.
  intros Hv. rewrite mapM_Forall2. intros Hf. revert Hv.
  induction Hf as [|[k names] es d froms Hkv Hf IH]; intros Hv; simpl.
  - exists []. split; constructor.
  - inversion Hv as [|? ? Hn Hv']; subst. destruct (IH Hv') as (its & Hp & Hits).
    rewrite from_nodes_eq in Hkv. inv_bind Hkv.
    apply mapM_Forall2 in Hkv. simpl in Hn.
    exists (map (FromItem k) a ++ its). split.
    + apply Permutation_app; [|assumption].
      unfold from_items. simpl. apply Permutation_map. symmetry.
      now apply sorted_pairs_inv.
    + apply Forall2_app; [|assumption]. now apply Forall2_map_l.
Qed.

Lemma new_nodes_inv (env : Env) (self : ImpSorter) (l : list entry) :
  wf self ->
  new_nodes env self = Ok l ->
  exists its, Permutation its (items self) /\
              Forall2 (fun i e => item_entry env i = Ok e) its l.
Proof.
  intros (H1 & H2 & H3) Hn. unfold new_nodes in Hn.
  inv_bind Hn. inv_bind Hn. injection Hn as <-.
  destruct (from_part_inv _ _ _ H3 Ha) as (its & Hp & Hits).
  exists (its ++ map PlainItem (imports self)). split.
  - unfold items. now apply Permutation_app_tail.
  - apply Forall2_app; [assumption|]. apply Forall2_map_l.
    apply mapM_Forall2 in Ha0. eapply Forall2_impl; [|exact Ha0].
    intros p e Hpe. now rewrite <- import_node_eq.
Qed.

Lemma new_nodes_sorted_names (env : Env) (self : ImpSorter) (l : list entry) k names :
  new_nodes env self = Ok l -> In (k, names) (from_imports self) ->
  exists sn, sorted names = Ok sn.
Proof.
  intros Hn Hin. unfold new_nodes in Hn. inv_bind Hn.
  destruct (mapM_In _ _ _ _ Ha Hin) as (es & Hes & _).
  rewrite from_nodes_eq in Hes. inv_bind Hes. eauto.
Qed.

Lemma new_nodes_total (env : Env) (self : ImpSorter) :
  (forall k names, In (k, names) (from_imports self) -> exists sn, sorted names = Ok sn) ->
  (forall i, In i (items self) -> exists e, item_entry env i = Ok e) ->
  wf self ->
  exists l, new_nodes env self = Ok l.
Proof.
  intros Hs Hi (H1 & H2 & H3). unfold new_nodes.
  destruct (mapM_total (from_nodes env) (from_imports self)) as [froms Hf].
  { intros [k names] Hin. rewrite from_nodes_eq.
    destruct (Hs _ _ Hin) as [sn Hsn]. rewrite Hsn. simpl.
    apply mapM_total. intros p Hp. apply Hi. apply In_items_from.
    exists names. split; [assumption|].
    rewrite Forall_forall in H3. specialize (H3 _ Hin). simpl in H3.
    eapply Permutation_in; [|exact Hp]. symmetry. now apply sorted_pairs_inv. }
  destruct (mapM_total (import_node env) (imports self)) as [plains Hp].
  { intros p Hp. rewrite import_node_eq. apply Hi. now apply In_items_plain. }
  rewrite Hf, Hp. simpl. eauto.
Qed.

(** ** The output depends on the items only *)

Lemma dict_unique (d : list (from_key * list name_pair)) k v v' :
  NoDup (map fst d) -> In (k, v) d -> In (k, v') d -> v = v'.
Proof.
  induction d as [|[k0 v0] d IH]; simpl; intros Hd Hv Hv'; [destruct Hv|].
  inversion Hd as [|? ? Hk0 Hd']; subst.
  destruct Hv as [[= -> ->] | Hv]; destruct Hv' as [[= <-] | Hv'].
  - reflexivity.
  - exfalso. apply Hk0. apply in_map_iff. exists (k, v'). auto.
  - subst. exfalso. apply Hk0. apply in_map_iff. exists (k0, v). auto.
  - now apply IH.
Qed.

Lemma holds_names (d : list (from_key * list name_pair)) k names p :
  NoDup (map fst d) -> In (k, names) d -> (In p names <-> holds d k p).
Proof.
  intros Hd Hin. split.
  - intros Hp. exists names. auto.
  - intros (names' & Hin' & Hp). now rewrite (dict_unique d k names names').
Qed.

Lemma Forall2_In_l {A B : Type} (R : A -> B -> Prop) (l : list A) (r : list B) (x : A) :
  Forall2 R l r -> In x l -> exists y, In y r /\ R x y.
Proof.
  induction 1 as [|a b l r Hab Hlr IH]; intros Hin; [destruct Hin|].
  destruct Hin as [<- | Hin].
  - exists b. split; [now left | assumption].
  - destruct (IH Hin) as (y & Hy & Hxy). exists y. split; [now right | assumption].
Qed.

Lemma Forall2_In_r {A B : Type} (R : A -> B -> Prop) (l : list A) (r : list B) (y : B) :
  Forall2 R l r -> In y r -> exists x, In x l /\ R x y.
Proof.
  induction 1 as [|a b l r Hab Hlr IH]; intros Hin; [destruct Hin|].
  destruct Hin as [<- | Hin].
  - exists a. split; [now left | assumption].
  - destruct (IH Hin) as (x & Hx & Hxy). exists x. split; [now right | assumption].
Qed.

Lemma Forall2_functional {A B : Type} (f : A -> result B) (l : list A) (r r' : list B) :
  Forall2 (fun x y => f x = Ok y) l r ->
  Forall2 (fun x y => f x = Ok y) l r' -> r = r'.
Proof.
  intros Hr; revert r'; induction Hr as [|a b l r Hab Hlr IH]; intros r' Hr';
    inversion Hr'; subst; [reflexivity|].
  f_equal; [congruence | now apply IH].
Qed.

Lemma same_items_Permutation (s1 s2 : ImpSorter) :
  wf s1 -> wf s2 -> (forall i, In i (items s1) <-> In i (items s2)) ->
  Permutation (items s1) (items s2).
Proof. intros H1 H2 Hi. apply NoDup_Permutation; auto using items_NoDup. Qed.

Lemma same_items_names (s1 s2 : ImpSorter) k names1 names2 :
  wf s1 -> wf s2 -> (forall i, In i (items s1) <-> In i (items s2)) ->
  In (k, names1) (from_imports s1) -> In (k, names2) (from_imports s2) ->
  Permutation names1 names2.
Proof.
  intros (_ & Hk1 & Hv1) (_ & Hk2 & Hv2) Hi Hin1 Hin2.
  rewrite Forall_forall in Hv1, Hv2.
  apply NoDup_Permutation; [exact (Hv1 _ Hin1) | exact (Hv2 _ Hin2) |].
  intros p. rewrite (holds_names _ _ _ p Hk1 Hin1), (holds_names _ _ _ p Hk2 Hin2).
  rewrite <- !In_items_from. apply Hi.
Qed.

Lemma new_nodes_same_items (env : Env) (s1 s2 : ImpSorter) (l1 : list entry) :
  wf s1 -> wf s2 -> (forall i, In i (items s1) <-> In i (items s2)) ->
  new_nodes env s1 = Ok l1 ->
  exists l2, new_nodes env s2 = Ok l2 /\ Permutation l1 l2.
Proof.
  intros Hwf1 Hwf2 Hi Hn1.
  destruct (new_nodes_inv _ _ _ Hwf1 Hn1) as (its1 & Hp1 & Hits1).
  destruct (new_nodes_total env s2) as [l2 Hn2]; [| |assumption|].
  - intros k [|p names2] Hin2; [exists []; reflexivity|].
    assert (Hh : holds (from_imports s1) k p).
    { apply In_items_from, Hi, In_items_from. exists (p :: names2). split; [assumption | now left]. }
    destruct Hh as (names1 & Hin1 & _).
    destruct (new_nodes_sorted_names _ _ _ _ _ Hn1 Hin1) as [sn Hsn].
    exists sn. eapply sorted_pairs_Permutation; [| |exact Hsn].
    + destruct Hwf1 as (_ & _ & Hv1). rewrite Forall_forall in Hv1. exact (Hv1 _ Hin1).
    + apply (same_items_names s1 s2 k); assumption.
  - intros i Hin. apply Hi in Hin.
    apply (Permutation_in _ (Permutation_sym Hp1)) in Hin.
    destruct (Forall2_In_l _ _ _ _ Hits1 Hin) as (e & _ & He). eauto.
  - exists l2. split; [assumption|].
    destruct (new_nodes_inv _ _ _ Hwf2 Hn2) as (its2 & Hp2 & Hits2).
    assert (Hp : Permutation its1 its2).
    { rewrite Hp1, Hp2. now apply same_items_Permutation. }
    destruct (Permutation_Forall2 Hp Hits1) as (l2' & Hpl & Hits2').
    now rewrite (Forall2_functional _ _ _ _ Hits2 Hits2').
Qed.

Lemma write_sorted_same_items (env : Env) (s1 s2 : ImpSorter) (file out : string) :
  wf s1 -> wf s2 -> (forall i, In i (items s1) <-> In i (items s2)) ->
  write_sorted env s1 file = Ok out -> write_sorted env s2 file = Ok out.
Proof.
  intros Hwf1 Hwf2 Hi Hw. unfold write_sorted in *.
  inv_bind Hw. inv_bind Hw.
  destruct (new_nodes_same_items _ _ _ _ Hwf1 Hwf2 Hi Ha) as (l2 & Hn2 & Hp).
  rewrite Hn2. simpl. rewrite (sorted_entries_Permutation _ _ _ Hp Ha0). exact Hw.
Qed.

(** Iterating the same sets in another order changes neither the
    well-formedness nor the items. *)
Lemma same_dict_holds d1 d2 k p : same_dict d1 d2 -> (holds d1 k p <-> holds d2 k p).
Proof.
  intros (d & Hp & Hf). unfold holds. split.
  - intros (names & Hin & Hn). apply (Permutation_in _ Hp) in Hin.
    destruct (Forall2_In_l _ _ _ _ Hf Hin) as ([k' names'] & Hin' & Hk & Hnames).
    simpl in *. subst k'. exists names'. split; [assumption|].
    eapply Permutation_in; eassumption.
  - intros (names & Hin & Hn).
    destruct (Forall2_In_r _ _ _ _ Hf Hin) as ([k' names'] & Hin' & Hk & Hnames).
    simpl in *. subst k'. exists names'. split.
    + eapply Permutation_in; [symmetry; exact Hp | assumption].
    + eapply Permutation_in; [symmetry; exact Hnames | assumption].
Qed.

Lemma reordering_items (a b : ImpSorter) (i : item) :
  reordering a b -> (In i (items a) <-> In i (items b)).
Proof.
  intros [Hi Hd]. destruct i as [p | k p].
  - rewrite !In_items_plain. split; apply Permutation_in; [assumption | now symmetry].
  - rewrite !In_items_from. now apply same_dict_holds.
Qed.

Lemma reordering_wf (a b : ImpSorter) : reordering a b -> wf a -> wf b.
Proof.
  intros [Hi (d & Hp & Hf)] (H1 & H2 & H3). repeat split.
  - eapply Permutation_NoDup; eassumption.
  - assert (Hk : map fst d = map fst (from_imports b)).
    { clear Hp. induction Hf as [|x y l r [Hxy _] Hlr IH]; simpl; congruence. }
    rewrite <- Hk. eapply Permutation_NoDup; [|exact H2]. now apply Permutation_map.
  - apply (Permutation_Forall Hp) in H3. clear Hp.
    induction Hf as [|x y l r [_ Hxy] Hlr IH]; constructor.
    + inversion H3; subst. eapply Permutation_NoDup; eassumption.
    + inversion H3; subst. auto.
Qed.

(** ** The root segment of a dotted name *)

Lemma split_root (r s : string) : is_root r s -> index0 (split "." s) = Ok r.
Proof.
  unfold is_root, has_dot. revert s; induction r as [|c r IH]; intros s [Hdot Hs].
  - destruct Hs as [-> | [rest ->]]; reflexivity.
  - simpl in Hdot.
    assert (Hc : Ascii.eqb c "." = false).
    { apply Ascii.eqb_neq. intros ->. apply Hdot. now left. }
    assert (Hs' : exists s', s = String c s' /\ index0 (split "." s') = Ok r).
    { destruct Hs as [-> | [rest ->]].
      - exists r. split; [reflexivity|]. apply IH. split; [tauto | now left].
      - exists (r ++ "." ++ rest)%string. split; [reflexivity|]. apply IH.
        split; [tauto | right; eauto]. }
    destruct Hs' as (s' & -> & Hr). simpl. rewrite Hc.
    destruct (split "." s') as [|w ws]; [discriminate|].
    injection Hr as ->. reflexivity.
Qed.

Lemma split_is_root (s : string) : exists r, is_root r s.
Proof.
  unfold is_root, has_dot. induction s as [|c s (r & Hdot & Hs)].
  - exists ""%string. split; [intros [] | now left].
  - destruct (Ascii.eqb c ".") eqn:Hc.
    + apply Ascii.eqb_eq in Hc. subst c. exists ""%string.
      split; [intros [] | right; exists s; reflexivity].
    + apply Ascii.eqb_neq in Hc. exists (String c r). split.
      * simpl. intros [He | Hin]; [congruence | contradiction].
      * destruct Hs as [-> | [rest ->]]; [now left | right; exists rest; reflexivity].
Qed.

Lemma class_name_key (env : Env) (n : node) (s r : string) :
  class_name n = Some s -> is_root r s ->
  exists fromimport name_ from_names,
    _node_sort_key env n =
    if (r =? "__future__")%string then
      Ok (0, 1, 1, fromimport, name_, from_names)%Z
    else if in_dec string_dec r (stdlibs env) then
      Ok (1, 0, 1, fromimport, name_, from_names)%Z
    else
      tp <- is_thirdparty env r ;;
      if tp then Ok (1, 1, 0, fromimport, name_, from_names)%Z
      else Ok (1, 1, 1, fromimport, name_, from_names)%Z.
Proof.
  intros Hn Hr. apply split_root in Hr.
  destruct n as [col [|a names] | col [m|] names level | col body]; try discriminate;
    injection Hn as <-; unfold _node_sort_key; simpl; rewrite Hr; simpl; eauto.
Qed.

Lemma original_nodes_collected (body : list node) :
  original_nodes (visit_tree body) = flat_map collected body.
Proof.
  unfold visit_tree. change (flat_map collected body) with (original_nodes init ++ flat_map collected body).
  generalize init. induction body as [|n body IH]; intros self; simpl.
  - now rewrite app_nil_r.
  - rewrite IH. rewrite app_assoc. f_equal. clear IH. revert self.
    induction n as [col names | col module names level | col stmts IHs]
      using node_induction; intros self; simpl.
    + unfold visit_Import. destruct (col =? 0)%nat; simpl; [reflexivity | now rewrite app_nil_r].
    + unfold visit_ImportFrom. destruct (col =? 0)%nat; simpl; [reflexivity | now rewrite app_nil_r].
    + revert self. induction IHs as [|c stmts Hc Hs IH]; intros self; simpl.
      * now rewrite app_nil_r.
      * rewrite IH, Hc, app_assoc. reflexivity.
Qed.

Lemma visit_nothing_collected (n : node) (self : ImpSorter) :
  collected n = [] -> visit self n = self.
Proof.
  revert self. induction n as [col names | col module names level | col body IH]
    using node_induction; intros self; simpl.
  - unfold visit_Import. destruct (col =? 0)%nat; [discriminate | reflexivity].
  - unfold visit_ImportFrom. destruct (col =? 0)%nat; [discriminate | reflexivity].
  - revert self. induction IH as [|c stmts Hc Hs IH]; intros self Hnil; simpl; [reflexivity|].
    simpl in Hnil. apply app_eq_nil in Hnil. destruct Hnil as [Hnc Hns].
    rewrite Hc by assumption. now apply IH.
Qed.

(** * The claims *)

(** C9: the sort key of a from-import does not depend on its relative
    level: two from-import declarations that differ only in their level get
    equal keys. *)
Theorem C9_key_ignores_level (env : Env) (col : nat) (module : option string)
  (names : list alias) (level1 level2 : nat) :
  _node_sort_key env (ImportFrom col module names level1)
  = _node_sort_key env (ImportFrom col module names level2).
Proof. reflexivity. Qed.

(** C10: when the visited tree has no import or from-import statement at
    column 0, the renderer writes nothing: the file is left as it was, so the
    output of a run is the empty text. *)
Theorem C10_no_imports_no_output (env : Env) (body : list node) (file : string) :
  flat_map collected body = [] ->
  write_sorted env (visit_tree body) file = Ok file /\ run env body = Ok ""%string.
Proof.
  intros Hnil.
  assert (Hv : visit_tree body = init).
  { unfold visit_tree. generalize init. induction body as [|n body IH]; intros self; simpl.
    - reflexivity.
    - simpl in Hnil. apply app_eq_nil in Hnil. destruct Hnil as [Hn Hb].
      rewrite (visit_nothing_collected n self Hn). now apply IH. }
  unfold run. rewrite Hv. split; reflexivity.
Qed.

Lemma C10_witness :
  flat_map collected [Stmt 0 [Import 4 [mk_alias "os" None]; Stmt 4 []]] = [] /\
  run sample_env [Stmt 0 [Import 4 [mk_alias "os" None]; Stmt 4 []]] = Ok ""%string.
Proof.
  split; [reflexivity|].
  apply (C10_no_imports_no_output sample_env
           [Stmt 0 [Import 4 [mk_alias "os" None]; Stmt 4 []]] ""%string).
  reflexivity.
Defined.

(** C5: classification looks at the root segment of the module name only,
    in a fixed order: [__future__] gives the future rank 0; otherwise a root
    in the stdlib set, which holds the built-in module names and the entries
    [itertools] and [operator], gives the stdlib rank 0; otherwise a root
    that is found on the search path gives the third-party rank 0; otherwise,
    the root not being found, all three ranks are 1. *)
Theorem C5_classification_order (env : Env) (n : node) (s r : string) :
  class_name n = Some s -> is_root r s ->
  (In "itertools"%string (stdlibs env) /\ In "operator"%string (stdlibs env) /\
   forall m, In m (builtin_module_names env) -> In m (stdlibs env)) /\
  (r = "__future__"%string ->
   exists k, _node_sort_key env n = Ok k /\ key3 k = (0, 1, 1)%Z) /\
  (r <> "__future__"%string -> In r (stdlibs env) ->
   exists k, _node_sort_key env n = Ok k /\ key3 k = (1, 0, 1)%Z) /\
  (r <> "__future__"%string -> ~ In r (stdlibs env) ->
   find_module env r (python_paths env) = Ok tt ->
   exists k, _node_sort_key env n = Ok k /\ key3 k = (1, 1, 0)%Z) /\
  (r <> "__future__"%string -> ~ In r (stdlibs env) ->
   find_module env r (python_paths env) = Raise ImportError ->
   exists k, _node_sort_key env n = Ok k /\ key3 k = (1, 1, 1)%Z).
Proof.
  intros Hn Hr.
  destruct (class_name_key env n s r Hn Hr) as (fi & nm & fn & Hk). rewrite Hk.
  split; [|repeat split].
  - unfold stdlibs. repeat split.
    + apply in_or_app. right. apply in_or_app. right. now left.
    + apply in_or_app. right. apply in_or_app. right. right. now left.
    + intros m Hm. apply in_or_app. right. apply in_or_app. now left.
  - intros ->. simpl. eauto.
  - intros Hf Hs. apply String.eqb_neq in Hf. rewrite Hf.
    destruct (in_dec string_dec r (stdlibs env)); [eauto | contradiction].
  - intros Hf Hs Hm. apply String.eqb_neq in Hf. rewrite Hf.
    destruct (in_dec string_dec r (stdlibs env)); [contradiction|].
    unfold is_thirdparty. rewrite Hm. simpl. eauto.
  - intros Hf Hs Hm. apply String.eqb_neq in Hf. rewrite Hf.
    destruct (in_dec string_dec r (stdlibs env)); [contradiction|].
    unfold is_thirdparty. rewrite Hm. simpl. eauto.
Qed.

Lemma C5_witness :
  exists k, _node_sort_key sample_env (frm 0 "os.path" "join") = Ok k
            /\ key3 k = (1, 0, 1)%Z.
Proof.
  refine (proj1 (proj2 (proj2
    (C5_classification_order sample_env (frm 0 "os.path" "join") "os.path" "os" _ _))) _ _).
  - reflexivity.
  - split; [|right; exists "path"%string; reflexivity].
    unfold has_dot. simpl. intros H.
    repeat (destruct H as [H | H]; [discriminate H|]). exact H.
  - discriminate.
  - simpl. auto.
Defined.

(** ** The text [write_sorted] writes *)

Lemma append_assoc (a b c : string) : ((a ++ b) ++ c = a ++ (b ++ c))%string.
Proof. induction a as [|x a IH]; simpl; [reflexivity | now rewrite IH]. Qed.

Lemma append_nil_r (a : string) : (a ++ "" = a)%string.
Proof. induction a as [|x a IH]; simpl; [reflexivity | now rewrite IH]. Qed.

Lemma unlines_app (l1 l2 : list string) :
  unlines (l1 ++ l2) = (unlines l1 ++ unlines l2)%string.
Proof.
  induction l1 as [|x l1 IH]; simpl; [reflexivity|].
  now rewrite IH, !append_assoc.
Qed.

Lemma write_node_lines (n : node) (file : string) :
  write_node n file = (file ++ unlines (node_lines n))%string.
Proof.
  destruct n; simpl; unfold print; rewrite ?append_nil_r; reflexivity.
Qed.

Lemma key3_eq (k1 k2 : sort_key) :
  py_eq (key3 k1) (key3 k2) = if key3_dec (key3 k1) (key3 k2) then true else false.
Proof.
  destruct (key3_dec (key3 k1) (key3 k2)) as [He | Hne].
  - now apply py_eq_spec.
  - now apply py_eq_false.
Qed.

Lemma write_loop_after (pk : sort_key) (pn : node) (entries : list entry) (file : string) :
  write_loop (Some pk) entries file =
  String.append file
    (unlines
       (flat_map (fun pc => separator (fst pc) (snd pc) ++ node_lines (snd (snd pc)))
                 (combine ((pk, pn) :: entries) entries))).
Proof.
  revert pk pn file; induction entries as [|[key n] entries IH]; intros pk pn file.
  - simpl. now rewrite append_nil_r.
  - cbn [write_loop]. rewrite (IH key n), write_node_lines.
    change (combine ((pk, pn) :: (key, n) :: entries) ((key, n) :: entries))
      with (((pk, pn), (key, n)) :: combine ((key, n) :: entries) entries).
    cbn [flat_map fst snd]. rewrite !unlines_app, key3_eq. unfold separator at 2.
    cbn [fst snd].
    destruct (key3_dec (key3 key) (key3 pk)) as [He | Hne];
      destruct (key3_dec (key3 pk) (key3 key)) as [He' | Hne']; try congruence;
      cbn [negb unlines]; unfold print; cbn [String.append];
      rewrite ?append_assoc; reflexivity.
Qed.

Lemma write_loop_lines (entries : list entry) (file : string) :
  write_loop None entries file = (file ++ unlines (expected_lines entries))%string.
Proof.
  destruct entries as [|[key n] entries]; [simpl; now rewrite append_nil_r|].
  cbn [write_loop expected_lines snd].
  rewrite (write_loop_after key n), write_node_lines, unlines_app, append_assoc.
  reflexivity.
Qed.

Lemma node_lines_not_blank (n : node) (line : string) :
  In line (node_lines n) -> line <> ""%string.
Proof.
  destruct n; simpl; intros H; try contradiction;
    destruct H as [<- | []]; discriminate.
Qed.

Lemma write_sorted_nodes (env : Env) (self : ImpSorter) (file : string) :
  write_sorted env self file = s <- sorted_nodes env self ;; Ok (write_loop None s file).
Proof.
  unfold write_sorted, sorted_nodes. destruct (new_nodes env self); reflexivity.
Qed.

(** C6: exactly one blank line is printed between two entries that follow
    each other when their rank triples differ and none when they are equal;
    nothing precedes the first entry, and no printed statement is itself a
    blank line. *)
Theorem C6_blank_line_between_groups (entries : list entry) (file : string) :
  write_loop None entries file = (file ++ unlines (expected_lines entries))%string /\
  (forall prev cur : entry,
     (key3 (fst prev) = key3 (fst cur) -> separator prev cur = []) /\
     (key3 (fst prev) <> key3 (fst cur) -> separator prev cur = [""%string])) /\
  (forall (e : entry) line, In line (node_lines (snd e)) -> line <> ""%string).
Proof.
  split; [apply write_loop_lines | split].
  - intros prev cur. unfold separator.
    destruct (key3_dec (key3 (fst prev)) (key3 (fst cur))); split; congruence.
  - intros e. apply node_lines_not_blank.
Qed.

(** C2: inside one provenance group the code orders by kind before name:
    the plain imports of the group come first, then its from-imports. *)
Theorem C2_plain_imports_before_from_imports :
  run sample_env [imp "sys"; frm 0 "os" "path"; frm 0 "os" "getcwd"; imp "itertools"]
  = Ok (unlines ["import itertools"; "import sys";
                 "from os import getcwd"; "from os import path"]%string).
Proof. vm_compute. reflexivity. Qed.

(** C3: a relative from-import without a module name, [from . import utils],
    makes the sort-key builder call [split] on [None]; the run raises
    [AttributeError] and writes nothing. *)
Theorem C3_relative_import_without_module_raises (env : Env) :
  _node_sort_key env (ImportFrom 0 None [mk_alias "utils" None] 1) = Raise AttributeError /\
  run env [ImportFrom 0 None [mk_alias "utils" None] 1] = Raise AttributeError.
Proof. split; reflexivity. Qed.

(** C4, as the claim states it, fails: a probe of the search path that
    raises anything but [ImportError] is not caught, and the run raises. *)
Lemma C4_counterexample :
  find_module sample_env "locked" (python_paths sample_env) = Raise OSError /\
  is_thirdparty sample_env "locked" = Raise OSError /\
  run sample_env [imp "locked"] = Raise OSError.
Proof. repeat split; reflexivity. Qed.

(** C4, amended: when the probe of the root segment raises [ImportError]
    the failure is caught, the module is not third-party and the declaration
    gets the ranks (1, 1, 1); when the probe raises any other exception, the
    sort-key builder raises that exception. *)
Theorem C4_only_ImportError_is_caught (env : Env) (n : node) (s r : string) (e : exn) :
  class_name n = Some s -> is_root r s ->
  r <> "__future__"%string -> ~ In r (stdlibs env) ->
  find_module env r (python_paths env) = Raise e ->
  match e with
  | ImportError =>
      is_thirdparty env r = Ok false /\
      exists k, _node_sort_key env n = Ok k /\ key3 k = (1, 1, 1)%Z
  | _ => is_thirdparty env r = Raise e /\ _node_sort_key env n = Raise e
  end.
Proof.
  intros Hn Hr Hf Hs Hm.
  destruct (class_name_key env n s r Hn Hr) as (fi & nm & fn & Hk). rewrite Hk.
  apply String.eqb_neq in Hf. rewrite Hf.
  destruct (in_dec string_dec r (stdlibs env)); [contradiction|].
  unfold is_thirdparty. rewrite Hm. destruct e; simpl; eauto.
Qed.

Lemma C4_witness :
  is_thirdparty sample_env "nosuch" = Ok false /\
  exists k, _node_sort_key sample_env (imp "nosuch.sub") = Ok k /\ key3 k = (1, 1, 1)%Z.
Proof.
  refine (C4_only_ImportError_is_caught sample_env (imp "nosuch.sub")
            "nosuch.sub" "nosuch" ImportError _ _ _ _ _).
  - reflexivity.
  - split; [|right; exists "sub"%string; reflexivity].
    unfold has_dot. simpl. intros H.
    repeat (destruct H as [H | H]; [discriminate H|]). exact H.
  - discriminate.
  - simpl. intros H. repeat (destruct H as [H | H]; [discriminate H|]). exact H.
  - reflexivity.
Defined.

(** ** The rendered sequence *)

Lemma sorted_nodes_nodes (env : Env) (self : ImpSorter) (entries : list entry) :
  wf self -> sorted_nodes env self = Ok entries ->
  Permutation (map snd entries) (map node_of_item (items self)).
Proof.
  intros Hwf Hs. unfold sorted_nodes in Hs. inv_bind Hs.
  destruct (new_nodes_inv _ _ _ Hwf Ha) as (its & Hp & Hits).
  destruct (sorted_entries_inv _ _ Hs) as [_ Hpe].
  rewrite <- Hpe, <- Hp. clear Hp Hpe Hs Ha.
  induction Hits as [|i e its l Hie Hits IH]; simpl; [constructor|].
  unfold item_entry in Hie. apply keyed_Ok in Hie. destruct Hie as [_ ->].
  now constructor.
Qed.

Lemma sorted_nodes_keys (env : Env) (self : ImpSorter) (entries : list entry) :
  sorted_nodes env self = Ok entries -> NoDup (map fst entries).
Proof.
  intros Hs. unfold sorted_nodes in Hs. inv_bind Hs.
  destruct (sorted_entries_inv _ _ Hs) as [Hss _]. clear Hs Ha.
  induction Hss as [|e s Hs IH He]; simpl; constructor; [|assumption].
  intros Hin. apply in_map_iff in Hin. destruct Hin as (e' & Hk & Hin).
  rewrite Forall_forall in He. specialize (He _ Hin).
  apply entry_lt_true in He. rewrite Hk in He. exact (py_lt_irrefl _ He).
Qed.

Lemma sorted_nodes_single (env : Env) (self : ImpSorter) (entries : list entry) (n : node) :
  wf self -> sorted_nodes env self = Ok entries -> In n (map snd entries) ->
  exists i, In i (items self) /\ n = node_of_item i.
Proof.
  intros Hwf Hs Hin.
  apply (Permutation_in _ (sorted_nodes_nodes _ _ _ Hwf Hs)) in Hin.
  apply in_map_iff in Hin. destruct Hin as (i & <- & Hi). eauto.
Qed.

Lemma collected_shape (n c : node) :
  In c (collected n) ->
  (exists names, c = Import 0 names) \/
  (exists module names level, c = ImportFrom 0 module names level).
Proof.
  induction n as [col names | col module names level | col body IH]
    using node_induction; simpl.
  - destruct (col =? 0)%nat eqn:E; [|intros []]. apply Nat.eqb_eq in E. subst.
    intros [<- | []]. left. eauto.
  - destruct (col =? 0)%nat eqn:E; [|intros []]. apply Nat.eqb_eq in E. subst.
    intros [<- | []]. right. eauto.
  - rewrite in_flat_map. intros (x & Hx & Hc).
    rewrite Forall_forall in IH. eauto.
Qed.

Lemma node_items_collected (n : node) (i : item) :
  In i (node_items n) <-> exists c, In c (collected n) /\ In i (node_items c).
Proof.
  induction n as [col names | col module names level | col body IH]
    using node_induction; simpl.
  - destruct (col =? 0)%nat eqn:E; simpl.
    + split; [intros Hi; eexists; split; [now left|]; simpl; now rewrite E|].
      intros (c & [<- | []] & Hc). simpl in Hc. now rewrite E in Hc.
    + split; [intros [] | intros (c & [] & _)].
  - destruct (col =? 0)%nat eqn:E; simpl.
    + split; [intros Hi; eexists; split; [now left|]; simpl; now rewrite E|].
      intros (c & [<- | []] & Hc). simpl in Hc. now rewrite E in Hc.
    + split; [intros [] | intros (c & [] & _)].
  - rewrite Forall_forall in IH. rewrite in_flat_map. split.
    + intros (x & Hx & Hi). apply (IH _ Hx) in Hi. destruct Hi as (c & Hc & Hi).
      exists c. split; [|assumption]. apply in_flat_map. eauto.
    + intros (c & Hc & Hi). apply in_flat_map in Hc. destruct Hc as (x & Hx & Hc).
      exists x. split; [assumption|]. apply (IH _ Hx). eauto.
Qed.

Lemma tree_from_items (body : list node) (level : nat) (module : option string)
  (nm : string) (asnm : option string) :
  In (FromItem (level, module) (nm, asnm)) (flat_map node_items body) <->
  exists names, In (ImportFrom 0 module names level) (flat_map collected body)
                /\ In (mk_alias nm asnm) names.
Proof.
  rewrite in_flat_map. split.
  - intros (n & Hn & Hi). apply node_items_collected in Hi.
    destruct Hi as (c & Hc & Hi).
    destruct (collected_shape _ _ Hc) as [(names & ->) | (m & names & l & ->)];
      simpl in Hi; apply in_map_iff in Hi; destruct Hi as (q & Hq & Hin); [discriminate|].
    injection Hq as -> -> ->. exists names. split.
    + apply in_flat_map. eauto.
    + now apply In_pairs_of.
  - intros (names & Hc & Hin). apply in_flat_map in Hc. destruct Hc as (n & Hn & Hc).
    exists n. split; [assumption|]. apply node_items_collected.
    eexists; split; [exact Hc|]. simpl. apply in_map. now apply In_pairs_of.
Qed.

Lemma run_sorted_nodes (env : Env) (body : list node) (out : string) :
  run env body = Ok out ->
  exists entries, sorted_nodes env (visit_tree body) = Ok entries /\
                  out = unlines (expected_lines entries).
Proof.
  unfold run. rewrite write_sorted_nodes. intros Hr. inv_bind Hr.
  injection Hr as <-. exists a. split; [assumption|]. now rewrite write_loop_lines.
Qed.

(** C1, as the claim states it, fails: two from-imports of one module are
    printed as two statements, not merged into one. *)
Lemma C1_counterexample :
  run sample_env [frm 0 "os" "path"; frm 0 "os" "getcwd"]
  = Ok (unlines ["from os import getcwd"; "from os import path"]%string) /\
  run sample_env [frm 0 "os" "path"; frm 0 "os" "getcwd"]
  <> Ok (unlines ["from os import getcwd, path"]%string).
Proof.
  assert (H : run sample_env [frm 0 "os" "path"; frm 0 "os" "getcwd"]
              = Ok (unlines ["from os import getcwd"; "from os import path"]%string))
    by (vm_compute; reflexivity).
  split; [exact H | rewrite H; discriminate].
Qed.

(** C1, amended: when a run returns, what it prints is a sequence of
    statements without repetition, each with exactly one name, in which the
    statement [from <level><module> import <name> [as <alias>]] occurs if and
    only if some from-import of that level and module at column 0 of the
    input imports that name under that alias: one statement for every
    distinct name of the union, none merged. *)
Theorem C1_one_statement_per_imported_name (env : Env) (body : list node) (out : string) :
  run env body = Ok out ->
  exists entries,
    sorted_nodes env (visit_tree body) = Ok entries /\
    out = unlines (expected_lines entries) /\
    NoDup (map snd entries) /\
    (forall n, In n (map snd entries) -> exists i, n = node_of_item i) /\
    (forall level module nm asnm,
       In (ImportFrom 0 module [mk_alias nm asnm] level) (map snd entries) <->
       exists names, In (ImportFrom 0 module names level) (flat_map collected body)
                     /\ In (mk_alias nm asnm) names).
Proof.
  intros Hr. destruct (run_sorted_nodes _ _ _ Hr) as (entries & Hs & Hout).
  pose proof (visit_tree_wf body) as Hwf.
  pose proof (sorted_nodes_nodes _ _ _ Hwf Hs) as Hp.
  exists entries. repeat split; try assumption.
  - eapply Permutation_NoDup; [symmetry; exact Hp|].
    apply Injective_map_NoDup; [exact node_of_item_inj | now apply items_NoDup].
  - intros n Hn. destruct (sorted_nodes_single _ _ _ _ Hwf Hs Hn) as (i & _ & Hi). eauto.
  - intros Hin. apply (Permutation_in _ Hp) in Hin. apply in_map_iff in Hin.
    destruct Hin as (i & Hi & Hin).
    change (ImportFrom 0 module [mk_alias nm asnm] level)
      with (node_of_item (FromItem (level, module) (nm, asnm))) in Hi.
    apply node_of_item_inj in Hi. subst i.
    apply visit_tree_items in Hin. now apply tree_from_items.
  - intros Hex. apply tree_from_items, visit_tree_items in Hex.
    apply (Permutation_in _ (Permutation_sym Hp)).
    change (ImportFrom 0 module [mk_alias nm asnm] level)
      with (node_of_item (FromItem (level, module) (nm, asnm))).
    now apply in_map.
Qed.

Lemma C1_witness :
  exists entries,
    sorted_nodes sample_env
      (visit_tree [frm 0 "os" "path"; frm 0 "os" "getcwd"; frm 0 "os" "path"]) = Ok entries /\
    unlines ["from os import getcwd"; "from os import path"]%string
      = unlines (expected_lines entries) /\
    NoDup (map snd entries) /\
    (forall n, In n (map snd entries) -> exists i, n = node_of_item i) /\
    (forall level module nm asnm,
       In (ImportFrom 0 module [mk_alias nm asnm] level) (map snd entries) <->
       exists names,
         In (ImportFrom 0 module names level)
            (flat_map collected [frm 0 "os" "path"; frm 0 "os" "getcwd"; frm 0 "os" "path"])
         /\ In (mk_alias nm asnm) names).
Proof.
  apply (C1_one_statement_per_imported_name sample_env
           [frm 0 "os" "path"; frm 0 "os" "getcwd"; frm 0 "os" "path"]).
  vm_compute. reflexivity.
Defined.

(** C7: when a run returns, the statements it has printed, read back as the
    top-level statements of a module and run again in the same environment,
    give the same text. *)
Theorem C7_idempotent (env : Env) (body : list node) (out : string) :
  run env body = Ok out ->
  exists entries,
    sorted_nodes env (visit_tree body) = Ok entries /\
    out = unlines (expected_lines entries) /\
    run env (map snd entries) = Ok out.
Proof.
  intros Hr. destruct (run_sorted_nodes _ _ _ Hr) as (entries & Hs & Hout).
  exists entries. repeat split; try assumption.
  pose proof (visit_tree_wf body) as Hwf.
  pose proof (sorted_nodes_nodes _ _ _ Hwf Hs) as Hp.
  unfold run in *.
  apply (write_sorted_same_items env (visit_tree body)); auto using visit_tree_wf.
  intros i. rewrite (visit_tree_items (map snd entries)), in_flat_map. split.
  - intros Hi. exists (node_of_item i). split.
    + apply (Permutation_in _ (Permutation_sym Hp)). now apply in_map.
    + now apply In_node_items_of_item.
  - intros (n & Hn & Hi). apply (Permutation_in _ Hp) in Hn.
    apply in_map_iff in Hn. destruct Hn as (j & <- & Hj).
    apply In_node_items_of_item in Hi. now subst.
Qed.

Lemma C7_witness :
  exists entries,
    sorted_nodes sample_env
      (visit_tree [imp "sys"; frm 1 "models" "User"; imp "requests"; frm 0 "os" "path"])
    = Ok entries /\
    unlines ["import sys"; "from os import path"; ""; "import requests"; "";
             "from .models import User"]%string = unlines (expected_lines entries) /\
    run sample_env (map snd entries)
    = Ok (unlines ["import sys"; "from os import path"; ""; "import requests"; "";
                   "from .models import User"]%string).
Proof.
  apply (C7_idempotent sample_env
           [imp "sys"; frm 1 "models" "User"; imp "requests"; frm 0 "os" "path"]).
  vm_compute. reflexivity.
Defined.

(** C8: the output does not depend on the order in which the sets and the
    dictionary of the collector are iterated: in one environment, any two
    iteration orders of the state collected from one input give the same
    text, or both give none.  Text is only written when all sort keys are
    different; with two equal sort keys every order raises. *)
Theorem C8_deterministic (env : Env) (body : list node) (s1 s2 : ImpSorter)
  (file out : string) :
  reordering (visit_tree body) s1 ->
  reordering (visit_tree body) s2 ->
  (write_sorted env s1 file = Ok out <-> write_sorted env s2 file = Ok out) /\
  (write_sorted env s1 file = Ok out ->
   exists entries, sorted_nodes env s1 = Ok entries /\ NoDup (map fst entries)).
Proof.
  intros H1 H2.
  pose proof (reordering_wf _ _ H1 (visit_tree_wf body)) as Hwf1.
  pose proof (reordering_wf _ _ H2 (visit_tree_wf body)) as Hwf2.
  assert (Hi : forall i, In i (items s1) <-> In i (items s2)).
  { intros i. rewrite <- (reordering_items _ _ i H1). now apply reordering_items. }
  split; [split|].
  - now apply write_sorted_same_items.
  - apply write_sorted_same_items; auto. intros i. symmetry. apply Hi.
  - rewrite write_sorted_nodes. intros Hw. inv_bind Hw.
    exists a. split; [assumption|]. eapply sorted_nodes_keys; eassumption.
Qed.

Lemma reordering_refl (self : ImpSorter) : reordering self self.
Proof.
  split; [reflexivity|]. exists (from_imports self). split; [reflexivity|].
  induction (from_imports self); constructor; auto.
Qed.

Lemma C8_witness :
  (write_sorted sample_env (visit_tree sample_body) ""
   = Ok (unlines ["import re"; "import sys"; "from os import getcwd";
                  "from os import path"; ""; "from .models import User"]%string)
   <-> write_sorted sample_env sample_state_reversed ""
       = Ok (unlines ["import re"; "import sys"; "from os import getcwd";
                      "from os import path"; ""; "from .models import User"]%string)) /\
  (write_sorted sample_env (visit_tree sample_body) ""
   = Ok (unlines ["import re"; "import sys"; "from os import getcwd";
                  "from os import path"; ""; "from .models import User"]%string) ->
   exists entries,
     sorted_nodes sample_env (visit_tree sample_body) = Ok entries
     /\ NoDup (map fst entries)).
Proof.
  apply (C8_deterministic sample_env sample_body).
  - apply reordering_refl.
  - split.
    + apply perm_swap.
    + exists [((1, Some "models"%string), [("User"%string, None)]);
              ((0, Some "os"%string), [("path"%string, None); ("getcwd"%string, None)])].
      split; [apply perm_swap|].
      repeat constructor.
Defined.

Example run_sample_body :
  write_sorted sample_env sample_state_reversed ""
  = Ok (unlines ["import re"; "import sys"; "from os import getcwd";
                 "from os import path"; ""; "from .models import User"]%string).
Proof. vm_compute. reflexivity. Qed.

(** * Further properties *)

(** ** The sort key, field by field *)

Lemma node_sort_key_fields (env : Env) (n : node) (s r : string) :
  class_name n = Some s -> is_root r s ->
  _node_sort_key env n =
  t <- ranks env r ;; Ok (t, kind_field n, name_field n, from_names_field n).
Proof.
  intros Hn Hr. apply split_root in Hr.
  destruct n as [col [|a names] | col [m|] names level | col body]; try discriminate;
    injection Hn as <-; unfold _node_sort_key, ranks; simpl; rewrite Hr; simpl;
    destruct (r =? "__future__")%string; try reflexivity;
    destruct (in_dec string_dec r (stdlibs env)); try reflexivity;
    destruct (is_thirdparty env r) as [[|]|e]; reflexivity.
Qed.

Lemma node_sort_key_Ok (env : Env) (n : node) (k : sort_key) :
  _node_sort_key env n = Ok k ->
  exists s r, class_name n = Some s /\ is_root r s /\ ranks env r = Ok (key3 k) /\
              k = (key3 k, kind_field n, name_field n, from_names_field n).
Proof.
  intros Hk.
  destruct (class_name n) as [s|] eqn:Hn.
  - destruct (split_is_root s) as [r Hr]. exists s, r.
    rewrite (node_sort_key_fields env n s r Hn Hr) in Hk.
    destruct (ranks env r) as [[[f st] t]|e]; [|discriminate].
    injection Hk as <-.
    split; [reflexivity|]. split; [exact Hr|]. split; reflexivity.
  - exfalso.
    destruct n as [col [|a names] | col [m|] names level | col body]; discriminate.
Qed.

Lemma ranks_values (env : Env) (r : string) (t : Z * Z * Z) :
  ranks env r = Ok t ->
  In t [(0, 1, 1); (1, 0, 1); (1, 1, 0); (1, 1, 1)]%Z.
Proof.
  unfold ranks. destruct (r =? "__future__")%string.
  - intros [= <-]. simpl. auto.
  - destruct (in_dec string_dec r (stdlibs env)).
    + intros [= <-]. simpl. auto.
    + destruct (is_thirdparty env r) as [[|]|e]; simpl; intros [= <-]; auto.
Qed.

(** X6: a declaration never gets more than one rank 0: whenever the key
    builder returns, the three ranks are those of exactly one of the four
    groups. *)
Theorem X6_one_group_per_declaration (env : Env) (n : node) (k : sort_key) :
  _node_sort_key env n = Ok k ->
  In (key3 k) [(0, 1, 1); (1, 0, 1); (1, 1, 0); (1, 1, 1)]%Z.
Proof.
  intros Hk. destruct (node_sort_key_Ok _ _ _ Hk) as (s & r & _ & _ & Hr & _).
  exact (ranks_values _ _ _ Hr).
Qed.

Lemma X6_witness :
  In (key3 (1, 1, 0, 0, [Some "requests"; None], @None (list string))%Z)
     [(0, 1, 1); (1, 0, 1); (1, 1, 0); (1, 1, 1)]%Z.
Proof.
  apply (X6_one_group_per_declaration sample_env (imp "requests")).
  reflexivity.
Defined.

(** ** The collector *)

Lemma tree_plain_items (body : list node) (nm : string) (asnm : option string) :
  In (PlainItem (nm, asnm)) (flat_map node_items body) <->
  exists names, In (Import 0 names) (flat_map collected body)
                /\ In (mk_alias nm asnm) names.
Proof.
  rewrite in_flat_map. split.
  - intros (n & Hn & Hi). apply node_items_collected in Hi.
    destruct Hi as (c & Hc & Hi).
    destruct (collected_shape _ _ Hc) as [(names & ->) | (m & names & l & ->)];
      simpl in Hi; apply in_map_iff in Hi; destruct Hi as (q & Hq & Hin); [|discriminate].
    injection Hq as ->. exists names. split.
    + apply in_flat_map. eauto.
    + now apply In_pairs_of.
  - intros (names & Hc & Hin). apply in_flat_map in Hc. destruct Hc as (n & Hn & Hc).
    exists n. split; [assumption|]. apply node_items_collected.
    eexists; split; [exact Hc|]. simpl. apply in_map. now apply In_pairs_of.
Qed.

(** X1: [original_nodes] holds exactly the import and from-import nodes that
    stand at column 0, in the order the visitor meets them, also when they
    are children of other statements; imports at any other column are not
    recorded. *)
Theorem X1_original_nodes_are_the_column_0_imports (body : list node) :
  original_nodes (visit_tree body) = flat_map collected body /\
  forall n, In n (original_nodes (visit_tree body)) ->
            (exists names, n = Import 0 names) \/
            (exists module names level, n = ImportFrom 0 module names level).
Proof.
  split; [apply original_nodes_collected|].
  intros n. rewrite original_nodes_collected, in_flat_map.
  intros (x & _ & Hn). exact (collected_shape _ _ Hn).
Qed.

(** X2: whatever is visited, the collector keeps sets: [imports] holds no
    pair twice, [from_imports] holds no (level, module) key twice and no set
    under a key holds a pair twice. *)
Theorem X2_collector_keeps_sets (body : list node) :
  NoDup (imports (visit_tree body)) /\
  NoDup (map fst (from_imports (visit_tree body))) /\
  forall k names, In (k, names) (from_imports (visit_tree body)) -> NoDup names.
Proof.
  destruct (visit_tree_wf body) as (H1 & H2 & H3). repeat split; try assumption.
  intros k names Hin. rewrite Forall_forall in H3. exact (H3 _ Hin).
Qed.

(** X3: after the visit, a pair (name, alias) is in [imports] exactly when
    some plain import at column 0 lists it, and it is in the set under the
    key (level, module) of [from_imports] exactly when some from-import of
    that level and module at column 0 lists it. *)
Theorem X3_collected_names (body : list node) (nm : string) (asnm : option string) :
  (In (nm, asnm) (imports (visit_tree body)) <->
   exists names, In (Import 0 names) (flat_map collected body)
                 /\ In (mk_alias nm asnm) names) /\
  (forall level module,
     holds (from_imports (visit_tree body)) (level, module) (nm, asnm) <->
     exists names, In (ImportFrom 0 module names level) (flat_map collected body)
                   /\ In (mk_alias nm asnm) names).
Proof.
  split.
  - rewrite <- In_items_plain, visit_tree_items. apply tree_plain_items.
  - intros level module.
    rewrite <- In_items_from, visit_tree_items. apply tree_from_items.
Qed.

(** ** The output is a function of the collected names *)

Lemma run_same_items (env : Env) (b1 b2 : list node) (out : string) :
  (forall i, In i (flat_map node_items b1) <-> In i (flat_map node_items b2)) ->
  run env b1 = Ok out -> run env b2 = Ok out.
Proof.
  intros Hi. unfold run. apply write_sorted_same_items; auto using visit_tree_wf.
  intros i. rewrite !visit_tree_items. apply Hi.
Qed.

(** X4: the order of the statements of the input does not matter: a
    rearrangement of the top-level statements gives the same text, or
    raises as well. *)
Theorem X4_input_order_is_irrelevant (env : Env) (b1 b2 : list node) (out : string) :
  Permutation b1 b2 ->
  (run env b1 = Ok out <-> run env b2 = Ok out).
Proof.
  intros Hp.
  assert (Hi : forall i, In i (flat_map node_items b1) <-> In i (flat_map node_items b2)).
  { intros i. rewrite !in_flat_map. split; intros (n & Hn & Hin); exists n; split; auto.
    - eapply Permutation_in; eassumption.
    - eapply Permutation_in; [symmetry|]; eassumption. }
  split; apply run_same_items; [exact Hi|].
  intros i. symmetry. apply Hi.
Qed.

Lemma X4_witness :
  run sample_env [frm 0 "os" "path"; imp "sys"] = Ok (unlines ["import sys"; "from os import path"]%string)
  <-> run sample_env [imp "sys"; frm 0 "os" "path"] = Ok (unlines ["import sys"; "from os import path"]%string).
Proof.
  apply (X4_input_order_is_irrelevant sample_env). apply perm_swap.
Defined.

(** X5: statements that occur more than once count once: appending
    statements that the input already has changes neither the text nor
    whether the run raises. *)
Theorem X5_repeated_statements_count_once (env : Env) (body again : list node)
  (out : string) :
  incl again body ->
  (run env (body ++ again) = Ok out <-> run env body = Ok out).
Proof.
  intros Hincl.
  assert (Hi : forall i, In i (flat_map node_items (body ++ again))
                         <-> In i (flat_map node_items body)).
  { intros i. rewrite flat_map_app, in_app_iff, !in_flat_map. split; [|auto].
    intros [H | (n & Hn & Hin)]; [assumption|]. exists n. split; [now apply Hincl | assumption]. }
  split; apply run_same_items; [exact Hi|].
  intros i. symmetry. apply Hi.
Qed.

Lemma X5_witness :
  run sample_env ([imp "sys"; frm 0 "os" "path"] ++ [frm 0 "os" "path"; imp "sys"])
  = Ok (unlines ["import sys"; "from os import path"]%string)
  <-> run sample_env [imp "sys"; frm 0 "os" "path"]
      = Ok (unlines ["import sys"; "from os import path"]%string).
Proof.
  apply (X5_repeated_statements_count_once sample_env).
  intros n [<- | [<- | []]]; simpl; auto.
Defined.

(** ** What a run can raise *)

#[export] Instance PyOrdRaises_int : PyOrdRaises Z.
Proof. intros a b e. discriminate. Qed.

#[export] Instance PyOrdRaises_str : PyOrdRaises string.
Proof. intros a b e. discriminate. Qed.

#[export] Instance PyOrdRaises_option (A : Type) `{PyOrdRaises A} : PyOrdRaises (option A).
Proof.
  intros [a|] [b|] e; simpl; try (intros [= <-]; reflexivity). apply py_lt_raises.
Qed.

#[export] Instance PyOrdRaises_list (A : Type) `{PyOrdRaises A} : PyOrdRaises (list A).
Proof.
  unfold PyOrdRaises. cbn [py_lt PyOrd_list].
  induction a as [|x a IH]; intros [|y b] e; simpl; try discriminate.
  destruct (py_eq x y); [apply IH | apply py_lt_raises].
Qed.

#[export] Instance PyOrdRaises_tuple (A B : Type) `{PyOrdRaises A} `{PyOrdRaises B} :
  PyOrdRaises (A * B).
Proof.
  intros [a b] [a' b'] e; simpl.
  destruct (py_eq a a'); [|apply py_lt_raises].
  destruct (py_eq b b'); [discriminate | apply py_lt_raises].
Qed.

#[export] Instance PyOrdRaises_node : PyOrdRaises node.
Proof. intros a b e. simpl. intros [= <-]. reflexivity. Qed.

Lemma insert_raises {A : Type} `{PyOrdRaises A} (x : A) (l : list A) (e : exn) :
  insert x l = Raise e -> e = TypeError.
Proof.
  induction l as [|y l IH]; simpl; [discriminate|].
  destruct (py_lt x y) as [[|]|e'] eqn:Hxy; simpl.
  - discriminate.
  - destruct (insert x l) as [r|e'']; simpl; [discriminate|].
    intros [= <-]. now apply IH.
  - intros [= <-]. eapply py_lt_raises; eassumption.
Qed.

Lemma sorted_from_raises {A : Type} `{PyOrdRaises A} (l acc : list A) (e : exn) :
  sorted_from (Ok acc) l = Raise e -> e = TypeError.
Proof.
  revert acc; induction l as [|x l IH]; intros acc; simpl; [discriminate|].
  fold (sorted_from (insert x acc) l).
  destruct (insert x acc) as [acc'|e'] eqn:Hi; [apply IH|].
  assert (Hr : forall l', sorted_from (Raise e') l' = Raise e').
  { induction l' as [|z l' IHl']; simpl; [reflexivity | exact IHl']. }
  rewrite Hr. intros [= <-]. eapply insert_raises; eassumption.
Qed.

Lemma sorted_raises {A : Type} `{PyOrdRaises A} (l : list A) (e : exn) :
  sorted l = Raise e -> e = TypeError.
Proof. apply sorted_from_raises. Qed.

Lemma mapM_Raise {A B : Type} (f : A -> result B) (l : list A) (e : exn) :
  mapM f l = Raise e -> exists x, In x l /\ f x = Raise e.
Proof.
  induction l as [|x l IH]; simpl; [discriminate|].
  destruct (f x) as [y|e'] eqn:Hx; simpl.
  - destruct (mapM f l) as [ys|e'']; simpl; [discriminate|].
    intros [= <-]. destruct IH as (z & Hz & Hfz); [reflexivity|]. eauto.
  - intros [= <-]. eauto.
Qed.

Lemma ranks_Raise (env : Env) (r : string) (e : exn) :
  ranks env r = Raise e ->
  e <> ImportError /\ find_module env r (python_paths env) = Raise e.
Proof.
  unfold ranks. destruct (r =? "__future__")%string; [discriminate|].
  destruct (in_dec string_dec r (stdlibs env)); [discriminate|].
  unfold is_thirdparty.
  destruct (find_module env r (python_paths env)) as [u|e']; simpl; [discriminate|].
  destruct e'; simpl; try discriminate; intros [= <-]; split; congruence.
Qed.

Lemma item_entry_Raise (env : Env) (i : item) (e : exn) :
  item_entry env i = Raise e ->
  e = AttributeError \/
  (e <> ImportError /\ exists m, find_module env m (python_paths env) = Raise e).
Proof.
  unfold item_entry, keyed. intros He.
  destruct (_node_sort_key env (node_of_item i)) as [k|e'] eqn:Hk; [discriminate|].
  injection He as ->.
  destruct (class_name (node_of_item i)) as [s|] eqn:Hn.
  - destruct (split_is_root s) as [r Hr].
    rewrite (node_sort_key_fields env _ s r Hn Hr) in Hk.
    destruct (ranks env r) as [t|e'] eqn:Ht; [discriminate|].
    injection Hk as ->. right. destruct (ranks_Raise _ _ _ Ht). eauto.
  - left. destruct i as [[nm asnm] | [level [m|]] [nm asnm]]; try discriminate.
    unfold node_of_item, _node_sort_key in Hk. simpl in Hk. congruence.
Qed.

(** X7: a run raises nothing but [TypeError] (from a comparison of the
    sort), [AttributeError] (from a from-import without module name), or an
    exception other than [ImportError] that the probe of the search path
    has raised; in particular it never raises [ImportError]. *)
Theorem X7_what_a_run_raises (env : Env) (body : list node) (e : exn) :
  run env body = Raise e ->
  e = TypeError \/ e = AttributeError \/
  (e <> ImportError /\ exists m, find_module env m (python_paths env) = Raise e).
Proof.
  unfold run, write_sorted, new_nodes. intros Hr.
  destruct (mapM (from_nodes env) (from_imports (visit_tree body))) as [froms|e1] eqn:Hf.
  - simpl in Hr.
    destruct (mapM (import_node env) (imports (visit_tree body))) as [plains|e2] eqn:Hp.
    + simpl in Hr. destruct (sorted (List.concat froms ++ plains)) as [s|e3] eqn:Hs;
        [discriminate|].
      injection Hr as <-. left. exact (sorted_raises _ _ Hs).
    + injection Hr as ->. apply mapM_Raise in Hp. destruct Hp as (p & _ & Hp).
      rewrite import_node_eq in Hp. right. now apply item_entry_Raise in Hp.
  - injection Hr as ->. apply mapM_Raise in Hf. destruct Hf as ([k names] & _ & Hf).
    rewrite from_nodes_eq in Hf.
    destruct (sorted names) as [sn|e'] eqn:Hs; simpl in Hf.
    + apply mapM_Raise in Hf. destruct Hf as (p & _ & Hp).
      right. now apply item_entry_Raise in Hp.
    + injection Hf as <-. left. exact (sorted_raises _ _ Hs).
Qed.

Lemma X7_witness :
  OSError = TypeError \/ OSError = AttributeError \/
  (OSError <> ImportError /\
   exists m, find_module sample_env m (python_paths sample_env) = Raise OSError).
Proof.
  apply (X7_what_a_run_raises sample_env [frm 0 "locked.sub" "x"; imp "sys"]).
  reflexivity.
Defined.

(** ** The order of the rendered sequence *)

Lemma sorted_nodes_keyed (env : Env) (self : ImpSorter) (entries : list entry) :
  wf self -> sorted_nodes env self = Ok entries ->
  Forall (fun e => _node_sort_key env (snd e) = Ok (fst e)) entries.
Proof.
  intros Hwf Hs. unfold sorted_nodes in Hs. inv_bind Hs.
  destruct (new_nodes_inv _ _ _ Hwf Ha) as (its & _ & Hits).
  destruct (sorted_entries_inv _ _ Hs) as [_ Hp].
  eapply Permutation_Forall; [exact Hp|].
  clear Hp Hs Ha. induction Hits as [|i e its l Hie Hits IH]; constructor; [|assumption].
  unfold item_entry in Hie. apply keyed_Ok in Hie. destruct Hie as [Hk He].
  cbn beta. rewrite He. exact Hk.
Qed.

Lemma sorted_nodes_strict (env : Env) (self : ImpSorter) (entries : list entry) :
  sorted_nodes env self = Ok entries ->
  StronglySorted (fun a b => py_lt (fst a) (fst b) = Ok true) entries.
Proof.
  intros Hs. unfold sorted_nodes in Hs. inv_bind Hs.
  destruct (sorted_entries_inv _ _ Hs) as [Hss _]. clear Hs Ha.
  induction Hss as [|e s Hs IH He]; constructor; [assumption|].
  eapply Forall_impl; [|exact He]. intros b Hb. now apply entry_lt_true.
Qed.

Lemma tuple_lt_true {A B : Type} `{PyOrdLaws A} `{PyOrdLaws B} (a a' : A) (b b' : B) :
  py_lt (a, b) (a', b') = Ok true <->
  (a = a' /\ py_lt b b' = Ok true) \/ (a <> a' /\ py_lt a a' = Ok true).
Proof.
  simpl. destruct (py_eq a a') eqn:Ea.
  - apply py_eq_spec in Ea. subst a'. destruct (py_eq b b') eqn:Eb.
    + apply py_eq_spec in Eb. subst b'. split; [discriminate|].
      intros [[_ Hb] | [Hne _]]; [|congruence].
      exfalso. exact (py_lt_irrefl _ Hb).
    + split; [auto | intros [[_ Hb] | [Hne _]]; [assumption | congruence]].
  - apply py_eq_false in Ea. split; [auto | intros [[He _] | [_ Ha]]; [contradiction | assumption]].
Qed.

Lemma key_lt_key3 (k1 k2 : sort_key) :
  py_lt k1 k2 = Ok true ->
  key3 k1 = key3 k2 \/ py_lt (key3 k1) (key3 k2) = Ok true.
Proof.
  destruct k1 as [[[t1 fi1] nm1] fn1]. destruct k2 as [[[t2 fi2] nm2] fn2].
  assert (H1 : key3 (t1, fi1, nm1, fn1) = t1) by (destruct t1 as [[? ?] ?]; reflexivity).
  assert (H2 : key3 (t2, fi2, nm2, fn2) = t2) by (destruct t2 as [[? ?] ?]; reflexivity).
  rewrite H1, H2. intros Hlt.
  apply tuple_lt_true in Hlt. destruct Hlt as [[[= -> -> ->] _] | [_ Hlt]]; [now left|].
  apply tuple_lt_true in Hlt. destruct Hlt as [[[= -> ->] _] | [_ Hlt]]; [now left|].
  apply tuple_lt_true in Hlt. destruct Hlt as [[-> _] | [_ Hlt]]; [now left | now right].
Qed.

Lemma group_index_le (t1 t2 : Z * Z * Z) :
  In t1 [(0, 1, 1); (1, 0, 1); (1, 1, 0); (1, 1, 1)]%Z ->
  In t2 [(0, 1, 1); (1, 0, 1); (1, 1, 0); (1, 1, 1)]%Z ->
  t1 = t2 \/ py_lt t1 t2 = Ok true ->
  group_index t1 <= group_index t2.
Proof.
  intros H1 H2 [-> | Hlt]; [lia|].
  simpl in H1, H2.
  repeat (destruct H1 as [<- | H1]; [|]); try contradiction;
    repeat (destruct H2 as [<- | H2]; [|]); try contradiction;
    vm_compute in Hlt; try discriminate; vm_compute; lia.
Qed.

Lemma group_index_inj (t1 t2 : Z * Z * Z) :
  In t1 [(0, 1, 1); (1, 0, 1); (1, 1, 0); (1, 1, 1)]%Z ->
  In t2 [(0, 1, 1); (1, 0, 1); (1, 1, 0); (1, 1, 1)]%Z ->
  group_index t1 = group_index t2 -> t1 = t2.
Proof.
  simpl. intros H1 H2.
  repeat (destruct H1 as [<- | H1]; [|]); try contradiction;
    repeat (destruct H2 as [<- | H2]; [|]); try contradiction;
    vm_compute; intros Hg; try reflexivity; discriminate.
Qed.

Lemma group_index_bound (t : Z * Z * Z) : group_index t <= 3.
Proof.
  unfold group_index.
  repeat match goal with |- context [key3_dec ?a ?b] => destruct (key3_dec a b) end; lia.
Qed.

(** X8: the rendered sequence is strictly increasing in the sort key, and
    the key of every rendered statement is the key the builder gives for
    that statement. *)
Theorem X8_output_is_sorted_by_key (env : Env) (body : list node) (out : string) :
  run env body = Ok out ->
  exists entries,
    sorted_nodes env (visit_tree body) = Ok entries /\
    out = unlines (expected_lines entries) /\
    StronglySorted (fun a b => py_lt (fst a) (fst b) = Ok true) entries /\
    Forall (fun e => _node_sort_key env (snd e) = Ok (fst e)) entries.
Proof.
  intros Hr. destruct (run_sorted_nodes _ _ _ Hr) as (entries & Hs & Hout).
  exists entries. repeat split; try assumption.
  - eapply sorted_nodes_strict; eassumption.
  - eapply sorted_nodes_keyed; [apply visit_tree_wf | eassumption].
Qed.

Lemma X8_witness :
  exists entries,
    sorted_nodes sample_env (visit_tree [imp "sys"; frm 0 "os" "path"; imp "re"]) = Ok entries /\
    unlines ["import re"; "import sys"; "from os import path"]%string
    = unlines (expected_lines entries) /\
    StronglySorted (fun a b => py_lt (fst a) (fst b) = Ok true) entries /\
    Forall (fun e => _node_sort_key sample_env (snd e) = Ok (fst e)) entries.
Proof.
  apply (X8_output_is_sorted_by_key sample_env [imp "sys"; frm 0 "os" "path"; imp "re"]).
  vm_compute. reflexivity.
Defined.

Lemma StronglySorted_impl_In {A : Type} (R Q : A -> A -> Prop) (l : list A) :
  (forall a b, In a l -> In b l -> R a b -> Q a b) ->
  StronglySorted R l -> StronglySorted Q l.
Proof.
  intros Himpl Hs. induction Hs as [|a l Hs IH Ha]; constructor.
  - apply IH. intros x y Hx Hy. apply Himpl; now right.
  - rewrite Forall_forall in *. intros b Hb. apply Himpl; [now left | now right | auto].
Qed.

Lemma node_lines_count (n : node) : count_occ string_dec (node_lines n) ""%string = 0.
Proof.
  apply count_occ_not_In. intros Hin. exact (node_lines_not_blank _ _ Hin eq_refl).
Qed.

Lemma separator_count (prev cur : entry) :
  count_occ string_dec (separator prev cur) ""%string
  = if key3_dec (key3 (fst prev)) (key3 (fst cur)) then 0 else 1.
Proof.
  unfold separator. destruct (key3_dec (key3 (fst prev)) (key3 (fst cur))); reflexivity.
Qed.

Lemma following_blank_count (rest : list entry) (prev : entry) :
  StronglySorted (fun a b => group_index (key3 (fst a)) <= group_index (key3 (fst b)))
                 (prev :: rest) ->
  Forall (fun e => In (key3 (fst e)) [(0, 1, 1); (1, 0, 1); (1, 1, 0); (1, 1, 1)]%Z)
         (prev :: rest) ->
  count_occ string_dec
    (flat_map (fun pc => separator (fst pc) (snd pc) ++ node_lines (snd (snd pc)))
              (combine (prev :: rest) rest)) ""%string
  + group_index (key3 (fst prev)) <= 3.
Proof.
  revert prev; induction rest as [|cur rest IH]; intros prev Hs Hv.
  - simpl. apply group_index_bound.
  - change (combine (prev :: cur :: rest) (cur :: rest))
      with ((prev, cur) :: combine (cur :: rest) rest).
    cbn [flat_map fst snd]. rewrite !count_occ_app, node_lines_count.
    inversion Hs as [|? ? Hs' Hp]; subst. inversion Hv as [|? ? Hvp Hv']; subst.
    specialize (IH cur Hs' Hv').
    inversion Hp as [|? ? Hpc _]; subst. inversion Hv' as [|? ? Hvc _]; subst.
    rewrite separator_count.
    destruct (key3_dec (key3 (fst prev)) (key3 (fst cur))) as [He | Hne].
    + rewrite He. lia.
    + assert (group_index (key3 (fst prev)) <> group_index (key3 (fst cur))).
      { intros Hg. apply Hne. now apply group_index_inj. }
      lia.
Qed.

Lemma sorted_nodes_ranks (env : Env) (self : ImpSorter) (entries : list entry) :
  wf self -> sorted_nodes env self = Ok entries ->
  Forall (fun e => In (key3 (fst e)) [(0, 1, 1); (1, 0, 1); (1, 1, 0); (1, 1, 1)]%Z)
         entries.
Proof.
  intros Hwf Hs. eapply Forall_impl; [|exact (sorted_nodes_keyed _ _ _ Hwf Hs)].
  intros e He. destruct (node_sort_key_Ok _ _ _ He) as (s & r & _ & _ & Hr & _).
  exact (ranks_values _ _ _ Hr).
Qed.

(** X9: the groups come in the order future, standard library, third
    party, other, each in one block: along the rendered sequence the group
    never goes back, and so the output has at most three blank lines. *)
Theorem X9_groups_in_order (env : Env) (body : list node) (out : string) :
  run env body = Ok out ->
  exists entries,
    sorted_nodes env (visit_tree body) = Ok entries /\
    out = unlines (expected_lines entries) /\
    StronglySorted
      (fun a b => group_index (key3 (fst a)) <= group_index (key3 (fst b))) entries /\
    count_occ string_dec (expected_lines entries) ""%string <= 3.
Proof.
  intros Hr. destruct (run_sorted_nodes _ _ _ Hr) as (entries & Hs & Hout).
  exists entries. split; [assumption|]. split; [assumption|].
  pose proof (sorted_nodes_ranks _ _ _ (visit_tree_wf body) Hs) as Hv.
  assert (Hg : StronglySorted
            (fun a b => group_index (key3 (fst a)) <= group_index (key3 (fst b))) entries).
  { eapply StronglySorted_impl_In; [|exact (sorted_nodes_strict _ _ _ Hs)].
    rewrite Forall_forall in Hv. intros a b Ha Hb Hlt.
    apply group_index_le; auto. now apply key_lt_key3. }
  split; [exact Hg|].
  destruct entries as [|first rest]; [simpl; lia|].
  cbn [expected_lines]. rewrite count_occ_app, node_lines_count.
  pose proof (following_blank_count rest first Hg Hv). lia.
Qed.

Lemma X9_witness :
  exists entries,
    sorted_nodes sample_env
      (visit_tree [frm 1 "models" "User"; imp "requests"; frm 0 "__future__" "division";
                   imp "sys"]) = Ok entries /\
    unlines ["from __future__ import division"; ""; "import sys"; ""; "import requests";
             ""; "from .models import User"]%string = unlines (expected_lines entries) /\
    StronglySorted
      (fun a b => group_index (key3 (fst a)) <= group_index (key3 (fst b))) entries /\
    count_occ string_dec (expected_lines entries) ""%string <= 3.
Proof.
  apply (X9_groups_in_order sample_env
           [frm 1 "models" "User"; imp "requests"; frm 0 "__future__" "division"; imp "sys"]).
  vm_compute. reflexivity.
Defined.

Lemma sorted_nodes_single_name (env : Env) (self : ImpSorter) (entries : list entry) :
  wf self -> sorted_nodes env self = Ok entries ->
  Forall (fun e => single_name (snd e)) entries.
Proof.
  intros Hwf Hs. pose proof (sorted_nodes_keyed _ _ _ Hwf Hs) as Hk.
  rewrite Forall_forall in *. intros e He. specialize (Hk _ He).
  destruct (sorted_nodes_single env self entries (snd e) Hwf Hs) as (i & _ & Hi);
    [now apply in_map|].
  destruct (node_sort_key_Ok _ _ _ Hk) as (s & r & Hn & _).
  rewrite Hi in *. unfold single_name.
  destruct i as [[nm asnm] | [level [m|]] [nm asnm]]; simpl in *; eauto. discriminate.
Qed.

Lemma within_group (env : Env) (na nb : node) (ka kb : sort_key) :
  _node_sort_key env na = Ok ka -> _node_sort_key env nb = Ok kb ->
  single_name na -> single_name nb ->
  py_lt ka kb = Ok true -> key3 ka = key3 kb ->
  within_group_order na nb.
Proof.
  intros Ha Hb Hsa Hsb Hlt Ht.
  destruct (node_sort_key_Ok _ _ _ Ha) as (_ & _ & _ & _ & _ & Hka).
  destruct (node_sort_key_Ok _ _ _ Hb) as (_ & _ & _ & _ & _ & Hkb).
  rewrite Hka, Hkb, Ht in Hlt. clear Ha Hb Hka Hkb Ht.
  generalize dependent (key3 kb). intros t Hlt.
  destruct Hsa as [(x & ->) | (m & x & l & ->)];
    destruct Hsb as [(y & ->) | (m' & y & l' & ->)]; cbn [kind_field name_field from_names_field] in Hlt;
    cbn [within_group_order]; trivial.
  - apply tuple_lt_true in Hlt. destruct Hlt as [[_ Hlt] | [_ Hlt]]; [discriminate|].
    apply tuple_lt_true in Hlt. destruct Hlt as [[_ Hlt] | [Hne _]]; [|congruence].
    simpl in Hlt. destruct (name x =? name y)%string eqn:E.
    + apply String.eqb_eq in E. right. split; [assumption|].
      destruct (asname x) as [p|], (asname y) as [q|]; simpl in Hlt; try discriminate.
      destruct (p =? q)%string; [discriminate|]. injection Hlt as Hlt. eauto.
    + injection Hlt as Hlt. now left.
  - apply tuple_lt_true in Hlt. destruct Hlt as [[[=] _] | [_ Hlt]].
    apply tuple_lt_true in Hlt. destruct Hlt as [[[=] _] | [_ Hlt]].
    apply tuple_lt_true in Hlt. destruct Hlt as [[_ Hlt] | [Hne _]]; [discriminate | congruence].
  - apply tuple_lt_true in Hlt. destruct Hlt as [[He Hlt] | [_ Hlt]].
    + injection He as ->. right. split; [reflexivity|].
      simpl in Hlt. destruct (name x =? name y)%string; [discriminate|].
      now injection Hlt as Hlt.
    + apply tuple_lt_true in Hlt. destruct Hlt as [[_ Hlt] | [Hne _]]; [|congruence].
      simpl in Hlt. destruct (m =? m')%string; [discriminate|].
      injection Hlt as Hlt. now left.
Qed.

(** X10: inside one group the plain imports come first, in increasing
    order of module name (and of alias, for one module under two aliases);
    the from-imports follow, in increasing order of module name and, for one
    module, of imported name.  No from-import stands before a plain import
    of its group. *)
Theorem X10_order_within_a_group (env : Env) (body : list node) (out : string) :
  run env body = Ok out ->
  exists entries,
    sorted_nodes env (visit_tree body) = Ok entries /\
    out = unlines (expected_lines entries) /\
    StronglySorted
      (fun a b => key3 (fst a) = key3 (fst b) -> within_group_order (snd a) (snd b))
      entries.
Proof.
  intros Hr. destruct (run_sorted_nodes _ _ _ Hr) as (entries & Hs & Hout).
  exists entries. split; [assumption|]. split; [assumption|].
  pose proof (visit_tree_wf body) as Hwf.
  pose proof (sorted_nodes_keyed _ _ _ Hwf Hs) as Hk.
  pose proof (sorted_nodes_single_name _ _ _ Hwf Hs) as Hsn.
  rewrite Forall_forall in Hk, Hsn.
  eapply StronglySorted_impl_In; [|exact (sorted_nodes_strict _ _ _ Hs)].
  intros a b Ha Hb Hlt Ht. cbn beta in Hlt.
  apply (within_group env (snd a) (snd b) (fst a) (fst b)); auto.
Qed.

Lemma X10_witness :
  exists entries,
    sorted_nodes sample_env
      (visit_tree [frm 0 "os" "path"; imp "sys"; frm 0 "os" "getcwd"; imp "re"]) = Ok entries /\
    unlines ["import re"; "import sys"; "from os import getcwd"; "from os import path"]%string
    = unlines (expected_lines entries) /\
    StronglySorted
      (fun a b => key3 (fst a) = key3 (fst b) -> within_group_order (snd a) (snd b))
      entries.
Proof.
  apply (X10_order_within_a_group sample_env
           [frm 0 "os" "path"; imp "sys"; frm 0 "os" "getcwd"; imp "re"]).
  vm_compute. reflexivity.
Defined.

(** ** The statements that are printed *)

(** X11: a run that returns prints one statement for every collected name
    and no other; every statement has exactly one name, every from-import
    has a module name, and the lines are [import <name>[ as <alias>]] and
    [from <dots><module> import <name>[ as <alias>]]. *)
Theorem X11_printed_statements (env : Env) (body : list node) (out : string) :
  run env body = Ok out ->
  exists entries,
    sorted_nodes env (visit_tree body) = Ok entries /\
    out = unlines (expected_lines entries) /\
    List.length entries = List.length (items (visit_tree body)) /\
    Forall (fun e =>
              (exists a, snd e = Import 0 [a] /\
                         node_lines (snd e) = [("import " ++ render_alias a)%string]) \/
              (exists m a level,
                  snd e = ImportFrom 0 (Some m) [a] level /\
                  node_lines (snd e)
                  = [("from " ++ str_mul "." level ++ m ++ " import " ++ render_alias a)%string]))
           entries.
Proof.
  intros Hr. destruct (run_sorted_nodes _ _ _ Hr) as (entries & Hs & Hout).
  exists entries. split; [assumption|]. split; [assumption|].
  pose proof (visit_tree_wf body) as Hwf. split.
  - pose proof (Permutation_length (sorted_nodes_nodes _ _ _ Hwf Hs)) as Hl.
    rewrite !List.length_map in Hl. exact Hl.
  - eapply Forall_impl; [|exact (sorted_nodes_single_name _ _ _ Hwf Hs)].
    intros e [(a & ->) | (m & a & l & ->)]; [left | right]; eauto 6.
Qed.

Lemma X11_witness :
  exists entries,
    sorted_nodes sample_env
      (visit_tree [ImportFrom 0 (Some "os") [mk_alias "path" (Some "p"); mk_alias "sep" None] 0;
                   Import 0 [mk_alias "re" None; mk_alias "sys" (Some "system")]])
    = Ok entries /\
    unlines ["import re"; "import sys as system"; "from os import path as p";
             "from os import sep"]%string = unlines (expected_lines entries) /\
    List.length entries
    = List.length (items (visit_tree
        [ImportFrom 0 (Some "os") [mk_alias "path" (Some "p"); mk_alias "sep" None] 0;
         Import 0 [mk_alias "re" None; mk_alias "sys" (Some "system")]])) /\
    Forall (fun e =>
              (exists a, snd e = Import 0 [a] /\
                         node_lines (snd e) = [("import " ++ render_alias a)%string]) \/
              (exists m a level,
                  snd e = ImportFrom 0 (Some m) [a] level /\
                  node_lines (snd e)
                  = [("from " ++ str_mul "." level ++ m ++ " import " ++ render_alias a)%string]))
           entries.
Proof.
  apply (X11_printed_statements sample_env
    [ImportFrom 0 (Some "os") [mk_alias "path" (Some "p"); mk_alias "sep" None] 0;
     Import 0 [mk_alias "re" None; mk_alias "sys" (Some "system")]]).
  vm_compute. reflexivity.
Defined.

(** ** Inputs on which a run raises *)

Lemma StronglySorted_pairs {A : Type} (R : A -> A -> Prop) (s : list A) :
  StronglySorted R s ->
  forall a b, In a s -> In b s -> a <> b -> R a b \/ R b a.
Proof.
  induction 1 as [|c s Hs IH Hc]; intros a b Ha Hb Hne; [destruct Ha|].
  rewrite Forall_forall in Hc.
  destruct Ha as [<- | Ha]; destruct Hb as [<- | Hb]; auto; congruence.
Qed.

Lemma run_items_comparable (env : Env) (body : list node) (out : string) (i1 i2 : item) :
  run env body = Ok out ->
  In i1 (flat_map node_items body) -> In i2 (flat_map node_items body) -> i1 <> i2 ->
  exists k1 k2,
    _node_sort_key env (node_of_item i1) = Ok k1 /\
    _node_sort_key env (node_of_item i2) = Ok k2 /\
    (py_lt k1 k2 = Ok true \/ py_lt k2 k1 = Ok true).
Proof.
  intros Hr H1 H2 Hne. destruct (run_sorted_nodes _ _ _ Hr) as (entries & Hs & _).
  pose proof (visit_tree_wf body) as Hwf.
  pose proof (sorted_nodes_nodes _ _ _ Hwf Hs) as Hp.
  pose proof (sorted_nodes_keyed _ _ _ Hwf Hs) as Hk. rewrite Forall_forall in Hk.
  assert (He : forall i, In i (flat_map node_items body) ->
                         exists e, In e entries /\ snd e = node_of_item i).
  { intros i Hi. apply visit_tree_items in Hi.
    apply (in_map node_of_item) in Hi.
    apply (Permutation_in _ (Permutation_sym Hp)) in Hi.
    apply in_map_iff in Hi. destruct Hi as (e & He & Hin). eauto. }
  destruct (He _ H1) as (e1 & Hin1 & Hn1). destruct (He _ H2) as (e2 & Hin2 & Hn2).
  exists (fst e1), (fst e2).
  split; [rewrite <- Hn1; now apply Hk|]. split; [rewrite <- Hn2; now apply Hk|].
  apply (StronglySorted_pairs _ entries (sorted_nodes_strict _ _ _ Hs)); auto.
  intros ->. apply Hne. apply node_of_item_inj. congruence.
Qed.

Lemma is_root_unique (r r' s : string) : is_root r s -> is_root r' s -> r = r'.
Proof.
  intros H H'. apply split_root in H, H'. congruence.
Qed.

Lemma same_name_same_ranks (env : Env) (n n' : node) (k k' : sort_key) :
  _node_sort_key env n = Ok k -> _node_sort_key env n' = Ok k' ->
  class_name n = class_name n' -> key3 k = key3 k'.
Proof.
  intros Hk Hk' Hn.
  destruct (node_sort_key_Ok _ _ _ Hk) as (s & r & Hs & Hr & Ht & _).
  destruct (node_sort_key_Ok _ _ _ Hk') as (s' & r' & Hs' & Hr' & Ht' & _).
  rewrite Hn, Hs' in Hs. injection Hs as <-.
  rewrite (is_root_unique _ _ _ Hr Hr') in Ht. congruence.
Qed.

(** X12: a from-import without module name at column 0 ([from . import x])
    makes every run raise, whatever else the input holds. *)
Theorem X12_from_import_without_module (env : Env) (body : list node)
  (names : list alias) (level : nat) (out : string) :
  In (ImportFrom 0 None names level) (flat_map collected body) ->
  names <> [] ->
  run env body <> Ok out.
Proof.
  intros Hin Hne Hr. destruct names as [|[nm asnm] names]; [congruence|].
  assert (Hi : In (FromItem (level, None) (nm, asnm)) (flat_map node_items body)).
  { apply tree_from_items. eexists; split; [exact Hin | now left]. }
  destruct (run_sorted_nodes _ _ _ Hr) as (entries & Hs & _).
  pose proof (visit_tree_wf body) as Hwf.
  pose proof (sorted_nodes_single_name _ _ _ Hwf Hs) as Hsn. rewrite Forall_forall in Hsn.
  apply visit_tree_items in Hi. apply (in_map node_of_item) in Hi.
  apply (Permutation_in _ (Permutation_sym (sorted_nodes_nodes _ _ _ Hwf Hs))) in Hi.
  apply in_map_iff in Hi. destruct Hi as (e & He & Hine).
  specialize (Hsn _ Hine). rewrite He in Hsn.
  destruct Hsn as [(a & Ha) | (m & a & l & Ha)]; discriminate.
Qed.

Lemma X12_witness :
  run sample_env [imp "sys"; ImportFrom 0 None [mk_alias "utils" None] 1]
  <> Ok (unlines ["import sys"; "from . import utils"]%string).
Proof.
  apply (X12_from_import_without_module sample_env
           [imp "sys"; ImportFrom 0 None [mk_alias "utils" None] 1]
           [mk_alias "utils" None] 1).
  - simpl. auto.
  - discriminate.
Defined.

(** X13: a module imported at column 0 both without alias and under an
    alias ([import os] and [import os as o]) makes every run raise: the sort
    would have to compare [None] with a string. *)
Theorem X13_import_with_and_without_alias (env : Env) (body : list node)
  (names1 names2 : list alias) (m a : string) (out : string) :
  In (Import 0 names1) (flat_map collected body) -> In (mk_alias m None) names1 ->
  In (Import 0 names2) (flat_map collected body) -> In (mk_alias m (Some a)) names2 ->
  run env body <> Ok out.
Proof.
  intros Hc1 Hn1 Hc2 Hn2 Hr.
  assert (H1 : In (PlainItem (m, None)) (flat_map node_items body))
    by (apply tree_plain_items; eauto).
  assert (H2 : In (PlainItem (m, Some a)) (flat_map node_items body))
    by (apply tree_plain_items; eauto).
  destruct (run_items_comparable env body out _ _ Hr H1 H2) as (k1 & k2 & Hk1 & Hk2 & Hlt);
    [discriminate|].
  pose proof (same_name_same_ranks _ _ _ _ _ Hk1 Hk2 eq_refl) as Ht.
  destruct (node_sort_key_Ok _ _ _ Hk1) as (_ & _ & _ & _ & _ & E1).
  destruct (node_sort_key_Ok _ _ _ Hk2) as (_ & _ & _ & _ & _ & E2).
  rewrite E1, E2, Ht in Hlt. cbn [kind_field name_field from_names_field node_of_item
                                  name asname fst snd] in Hlt.
  destruct Hlt as [Hlt | Hlt];
    (apply tuple_lt_true in Hlt; destruct Hlt as [[_ Hlt] | [_ Hlt]]; [discriminate|]);
    (apply tuple_lt_true in Hlt; destruct Hlt as [[_ Hlt] | [Hne _]]; [|congruence]);
    simpl in Hlt; rewrite String.eqb_refl in Hlt; discriminate.
Qed.

Lemma X13_witness :
  run sample_env [imp "os"; Import 0 [mk_alias "os" (Some "o")]]
  <> Ok (unlines ["import os"; "import os as o"]%string).
Proof.
  apply (X13_import_with_and_without_alias sample_env
           [imp "os"; Import 0 [mk_alias "os" (Some "o")]]
           [mk_alias "os" None] [mk_alias "os" (Some "o")] "os" "o");
    simpl; auto.
Defined.

(** X14: one name imported at column 0 from modules of the same name at
    two relative levels, or twice from one module under two aliases, gives
    two equal sort keys and makes every run raise. *)
Theorem X14_equal_sort_keys (env : Env) (body : list node)
  (module : option string) (names1 names2 : list alias) (level1 level2 : nat)
  (x : string) (a1 a2 : option string) (out : string) :
  In (ImportFrom 0 module names1 level1) (flat_map collected body) ->
  In (mk_alias x a1) names1 ->
  In (ImportFrom 0 module names2 level2) (flat_map collected body) ->
  In (mk_alias x a2) names2 ->
  level1 <> level2 \/ a1 <> a2 ->
  run env body <> Ok out.
Proof.
  intros Hc1 Hn1 Hc2 Hn2 Hne Hr.
  assert (H1 : In (FromItem (level1, module) (x, a1)) (flat_map node_items body))
    by (apply tree_from_items; eauto).
  assert (H2 : In (FromItem (level2, module) (x, a2)) (flat_map node_items body))
    by (apply tree_from_items; eauto).
  destruct (run_items_comparable env body out _ _ Hr H1 H2) as (k1 & k2 & Hk1 & Hk2 & Hlt).
  { intros [= -> ->]. destruct Hne; congruence. }
  pose proof (same_name_same_ranks _ _ _ _ _ Hk1 Hk2 eq_refl) as Ht.
  destruct (node_sort_key_Ok _ _ _ Hk1) as (_ & _ & _ & _ & _ & E1).
  destruct (node_sort_key_Ok _ _ _ Hk2) as (_ & _ & _ & _ & _ & E2).
  assert (He : k1 = k2) by (rewrite E1, E2, Ht; reflexivity).
  rewrite He in Hlt. destruct Hlt as [Hlt | Hlt]; exact (py_lt_irrefl _ Hlt).
Qed.

Lemma X14_witness :
  run sample_env [frm 1 "foo" "x"; frm 2 "foo" "x"]
  <> Ok (unlines ["from .foo import x"; "from ..foo import x"]%string).
Proof.
  apply (X14_equal_sort_keys sample_env [frm 1 "foo" "x"; frm 2 "foo" "x"]
           (Some "foo"%string) [mk_alias "x" None] [mk_alias "x" None] 1 2 "x" None None);
    simpl; auto.
Defined.

(** ** When a run returns *)

Lemma run_from_has_module (env : Env) (body : list node) (out : string)
  (k : from_key) (p : name_pair) :
  run env body = Ok out -> In (FromItem k p) (flat_map node_items body) -> snd k <> None.
Proof.
  intros Hr Hi Hnone. destruct (run_sorted_nodes _ _ _ Hr) as (entries & Hs & _).
  pose proof (visit_tree_wf body) as Hwf.
  pose proof (sorted_nodes_single_name _ _ _ Hwf Hs) as Hsn. rewrite Forall_forall in Hsn.
  apply visit_tree_items in Hi. apply (in_map node_of_item) in Hi.
  apply (Permutation_in _ (Permutation_sym (sorted_nodes_nodes _ _ _ Hwf Hs))) in Hi.
  apply in_map_iff in Hi. destruct Hi as (e & He & Hine).
  specialize (Hsn _ Hine). rewrite He in Hsn. simpl in Hsn. rewrite Hnone in Hsn.
  destruct Hsn as [(a & Ha) | (m & a & l & Ha)]; discriminate.
Qed.

Lemma plain_alias_incomparable (env : Env) (m x : string) (k1 k2 : sort_key) :
  _node_sort_key env (node_of_item (PlainItem (m, None))) = Ok k1 ->
  _node_sort_key env (node_of_item (PlainItem (m, Some x))) = Ok k2 ->
  ~ (py_lt k1 k2 = Ok true \/ py_lt k2 k1 = Ok true).
Proof.
  intros Hk1 Hk2 Hlt.
  pose proof (same_name_same_ranks _ _ _ _ _ Hk1 Hk2 eq_refl) as Ht.
  destruct (node_sort_key_Ok _ _ _ Hk1) as (_ & _ & _ & _ & _ & E1).
  destruct (node_sort_key_Ok _ _ _ Hk2) as (_ & _ & _ & _ & _ & E2).
  rewrite E1, E2, Ht in Hlt. cbn [kind_field name_field from_names_field node_of_item
                                  name asname fst snd] in Hlt.
  destruct Hlt as [Hlt | Hlt];
    (apply tuple_lt_true in Hlt; destruct Hlt as [[_ Hlt] | [_ Hlt]]; [discriminate|]);
    (apply tuple_lt_true in Hlt; destruct Hlt as [[_ Hlt] | [Hne _]]; [|congruence]);
    simpl in Hlt; rewrite String.eqb_refl in Hlt; discriminate.
Qed.

Lemma from_same_key (env : Env) (k k' : from_key) (x : string) (a a' : option string)
  (k1 k2 : sort_key) :
  snd k = snd k' ->
  _node_sort_key env (node_of_item (FromItem k (x, a))) = Ok k1 ->
  _node_sort_key env (node_of_item (FromItem k' (x, a'))) = Ok k2 ->
  k1 = k2.
Proof.
  intros Hm Hk1 Hk2.
  assert (Hn : class_name (node_of_item (FromItem k (x, a)))
               = class_name (node_of_item (FromItem k' (x, a')))).
  { simpl. now rewrite Hm. }
  pose proof (same_name_same_ranks _ _ _ _ _ Hk1 Hk2 Hn) as Ht.
  destruct (node_sort_key_Ok _ _ _ Hk1) as (_ & _ & _ & _ & _ & E1).
  destruct (node_sort_key_Ok _ _ _ Hk2) as (_ & _ & _ & _ & _ & E2).
  rewrite E1, E2, Ht. simpl. now rewrite Hm.
Qed.

Lemma run_no_clash (env : Env) (body : list node) (out : string) :
  run env body = Ok out -> no_clash (flat_map node_items body).
Proof.
  intros Hr. split; [|split].
  - intros m a b H1 H2.
    destruct a as [x|], b as [y|]; try (right; split; discriminate); try (now left).
    + exfalso.
      destruct (run_items_comparable env body out _ _ Hr H2 H1) as (k1 & k2 & Hk1 & Hk2 & Hlt);
        [discriminate|].
      exact (plain_alias_incomparable _ _ _ _ _ Hk1 Hk2 Hlt).
    + exfalso.
      destruct (run_items_comparable env body out _ _ Hr H1 H2) as (k1 & k2 & Hk1 & Hk2 & Hlt);
        [discriminate|].
      exact (plain_alias_incomparable _ _ _ _ _ Hk1 Hk2 Hlt).
  - intros k k' x a a' H1 H2 Hm.
    destruct (from_key_dec k k') as [-> | Hk];
      [destruct (option_string_dec a a') as [-> | Ha]; [auto|] |]; exfalso;
      (destruct (run_items_comparable env body out _ _ Hr H1 H2)
         as (k1 & k2 & Hk1 & Hk2 & Hlt); [congruence|]);
      rewrite (from_same_key _ _ _ _ _ _ _ _ Hm Hk1 Hk2) in Hlt;
      destruct Hlt as [Hlt | Hlt]; exact (py_lt_irrefl _ Hlt).
  - intros k p. apply (run_from_has_module env body out). exact Hr.
Qed.

Lemma tri_int (a b : Z) : py_lt a b = Ok true \/ a = b \/ py_lt b a = Ok true.
Proof.
  simpl. destruct (Z.lt_trichotomy a b) as [H | [H | H]].
  - left. f_equal. lia.
  - auto.
  - right. right. f_equal. lia.
Qed.

Lemma tri_str (a b : string) : py_lt a b = Ok true \/ a = b \/ py_lt b a = Ok true.
Proof.
  destruct (String.ltb a b) eqn:E; [left; simpl; now rewrite E|].
  assert (H : py_lt a b = Ok false) by (simpl; now rewrite E).
  destruct (py_lt_false _ _ H); auto.
Qed.

Lemma tri_tuple {A B : Type} `{PyOrdLaws A} `{PyOrdLaws B} (a a' : A) (b b' : B) :
  py_lt a a' = Ok true \/ a = a' \/ py_lt a' a = Ok true ->
  (a = a' -> py_lt b b' = Ok true \/ b = b' \/ py_lt b' b = Ok true) ->
  py_lt (a, b) (a', b') = Ok true \/ (a, b) = (a', b') \/ py_lt (a', b') (a, b) = Ok true.
Proof.
  intros Ha Hb. rewrite !tuple_lt_true.
  destruct (py_eq a a') eqn:E.
  - apply py_eq_spec in E. subst a'. destruct (Hb eq_refl) as [Hlt | [-> | Hlt]]; auto.
  - apply py_eq_false in E. destruct Ha as [Hlt | [He | Hlt]].
    + left. right. split; assumption.
    + contradiction.
    + right. right. right. split; [congruence | assumption].
Qed.

Lemma tri_ranks (t t' : Z * Z * Z) :
  py_lt t t' = Ok true \/ t = t' \/ py_lt t' t = Ok true.
Proof.
  destruct t as [[f s] x], t' as [[f' s'] x'].
  apply tri_tuple; [apply tri_tuple|]; intros; apply tri_int.
Qed.

Lemma tri_plain_names (m m' : string) (a a' : option string) :
  (m = m' -> a = a' \/ (a <> None /\ a' <> None)) ->
  py_lt [Some m; a] [Some m'; a'] = Ok true \/ [Some m; a] = [Some m'; a'] \/
  py_lt [Some m'; a'] [Some m; a] = Ok true.
Proof.
  intros Hc. simpl. destruct (tri_str m m') as [H | [-> | H]].
  - left. simpl in H. injection H as H.
    destruct (m =? m')%string eqn:E; [|now rewrite H].
    apply String.eqb_eq in E. subst. exfalso.
    exact (py_lt_irrefl m' (f_equal Ok H)).
  - rewrite String.eqb_refl.
    destruct (Hc eq_refl) as [-> | [Ha Ha']].
    + right. left. reflexivity.
    + destruct a as [p|], a' as [q|]; try congruence. simpl.
      destruct (tri_str p q) as [H | [-> | H]].
      * left. simpl in H. injection H as H.
        destruct (p =? q)%string eqn:E; [|now rewrite H].
        apply String.eqb_eq in E. subst. exfalso.
        exact (py_lt_irrefl q (f_equal Ok H)).
      * right. left. reflexivity.
      * right. right. simpl in H. injection H as H.
        destruct (q =? p)%string eqn:E; [|now rewrite H].
        apply String.eqb_eq in E. subst. exfalso.
        exact (py_lt_irrefl p (f_equal Ok H)).
  - right. right. simpl in H. injection H as H.
    destruct (m' =? m)%string eqn:E; [|now rewrite H].
    apply String.eqb_eq in E. subst. exfalso.
    exact (py_lt_irrefl m (f_equal Ok H)).
Qed.

Lemma tri_single {A : Type} `{PyOrdLaws A} (x y : A) :
  py_lt x y = Ok true \/ x = y \/ py_lt y x = Ok true ->
  py_lt [x] [y] = Ok true \/ [x] = [y] \/ py_lt [y] [x] = Ok true.
Proof.
  intros Hxy. cbn [py_lt PyOrd_list list_lt].
  destruct Hxy as [Hlt | [-> | Hlt]].
  - left. destruct (py_eq x y) eqn:E; [|assumption].
    apply py_eq_spec in E. subst. exfalso. exact (py_lt_irrefl _ Hlt).
  - right. left. reflexivity.
  - right. right. destruct (py_eq y x) eqn:E; [|assumption].
    apply py_eq_spec in E. subst. exfalso. exact (py_lt_irrefl _ Hlt).
Qed.

Lemma tri_some {A : Type} `{PyOrdLaws A} (x y : A) :
  py_lt x y = Ok true \/ x = y \/ py_lt y x = Ok true ->
  py_lt (Some x) (Some y) = Ok true \/ Some x = Some y \/ py_lt (Some y) (Some x) = Ok true.
Proof. simpl. intros [H' | [-> | H']]; auto. Qed.

Lemma ranks_total (env : Env) (r : string) :
  probe_fails_softly env -> exists t, ranks env r = Ok t.
Proof.
  intros Hp. unfold ranks. destruct (r =? "__future__")%string; [eauto|].
  destruct (in_dec string_dec r (stdlibs env)); [eauto|].
  unfold is_thirdparty.
  destruct (find_module env r (python_paths env)) as [u|e] eqn:Hf; simpl; [eauto|].
  rewrite (Hp _ _ Hf). simpl. eauto.
Qed.

Lemma item_entry_total (env : Env) (its : list item) (i : item) :
  probe_fails_softly env -> no_clash its -> In i its ->
  exists e, item_entry env i = Ok e.
Proof.
  intros Hp (_ & _ & Hm) Hin.
  assert (Hn : exists s, class_name (node_of_item i) = Some s).
  { destruct i as [[m a] | [l md] [x a]]; simpl; [eauto|].
    specialize (Hm _ _ Hin). simpl in Hm. destruct md; [eauto | congruence]. }
  destruct Hn as [s Hn]. destruct (split_is_root s) as [r Hr].
  unfold item_entry, keyed. rewrite (node_sort_key_fields env _ s r Hn Hr).
  destruct (ranks_total env r Hp) as [t ->]. simpl. eauto.
Qed.

Lemma items_comparable (env : Env) (its : list item) (i1 i2 : item) (e1 e2 : entry) :
  no_clash its -> In i1 its -> In i2 its -> i1 <> i2 ->
  item_entry env i1 = Ok e1 -> item_entry env i2 = Ok e2 ->
  py_lt e1 e2 = Ok true \/ py_lt e2 e1 = Ok true.
Proof.
  intros (Hc1 & Hc2 & Hc3) H1 H2 Hne He1 He2.
  unfold item_entry in He1, He2. apply keyed_Ok in He1, He2.
  destruct He1 as [Hk1 _], He2 as [Hk2 _].
  destruct (node_sort_key_Ok _ _ _ Hk1) as (_ & _ & _ & _ & _ & E1).
  destruct (node_sort_key_Ok _ _ _ Hk2) as (_ & _ & _ & _ & _ & E2).
  rewrite !entry_lt_true, E1, E2.
  generalize (key3 (fst e1)) (key3 (fst e2)). intros t1 t2. clear Hk1 Hk2 E1 E2.
  assert (Hgoal : forall k1 k2 : sort_key,
             py_lt k1 k2 = Ok true \/ k1 = k2 \/ py_lt k2 k1 = Ok true ->
             k1 <> k2 -> py_lt k1 k2 = Ok true \/ py_lt k2 k1 = Ok true)
    by (intros k1 k2 [H | [H | H]] Hk; tauto).
  apply Hgoal; clear Hgoal.
  - destruct i1 as [[m a] | k [x a]]; destruct i2 as [[m' a'] | k' [x' a']];
      cbn [node_of_item kind_field name_field from_names_field name asname fst snd].
    + apply tri_tuple; [apply tri_tuple; [apply tri_tuple; [apply tri_ranks|] |] |].
      * intros _. apply tri_int.
      * intros _. apply tri_plain_names. intros <-. exact (Hc1 _ _ _ H1 H2).
      * intros _. right. left. reflexivity.
    + apply tri_tuple; [apply tri_tuple; [apply tri_tuple; [apply tri_ranks|] |] |].
      * intros _. apply tri_int.
      * intros [=].
      * intros [=].
    + apply tri_tuple; [apply tri_tuple; [apply tri_tuple; [apply tri_ranks|] |] |].
      * intros _. apply tri_int.
      * intros [=].
      * intros [=].
    + pose proof (Hc3 _ _ H1) as Hm1. pose proof (Hc3 _ _ H2) as Hm2.
      destruct (snd k) as [s|]; [|congruence]. destruct (snd k') as [s'|]; [|congruence].
      apply tri_tuple; [apply tri_tuple; [apply tri_tuple; [apply tri_ranks|] |] |].
      * intros _. apply tri_int.
      * intros _. apply tri_single, tri_some, tri_str.
      * intros _. apply tri_some, tri_single, tri_str.
  - intros Heq. apply Hne.
    destruct i1 as [[m a] | k [x a]]; destruct i2 as [[m' a'] | k' [x' a']];
      cbn [node_of_item kind_field name_field from_names_field name asname fst snd] in Heq;
      try discriminate.
    + injection Heq as _ -> ->. reflexivity.
    + injection Heq as _ Hm ->.
      destruct (Hc2 _ _ _ _ _ H1 H2 Hm) as [-> ->]. reflexivity.
Qed.

Lemma no_clash_names_sorted (its : list item) (k : from_key) (names : list name_pair) :
  no_clash its -> NoDup names -> (forall p, In p names -> In (FromItem k p) its) ->
  exists sn, sorted names = Ok sn.
Proof.
  intros (_ & Hc2 & _) Hnd Hin.
  apply (sorted_from_total py_lt_true names []); [exact Hnd|].
  intros [x a] [x' a'] Hp Hq Hne. cbn beta. unfold name_pair.
  rewrite !tuple_lt_true.
  destruct (tri_str x x') as [H | [-> | H]].
  - left. right. split; [|assumption]. intros ->. exact (py_lt_irrefl _ H).
  - exfalso. apply Hne.
    destruct (Hc2 _ _ _ _ _ (Hin _ Hp) (Hin _ Hq) eq_refl) as [_ ->]. reflexivity.
  - right. right. split; [|assumption]. intros ->. exact (py_lt_irrefl _ H).
Qed.

Lemma no_clash_ext (l l' : list item) :
  (forall i, In i l <-> In i l') -> no_clash l -> no_clash l'.
Proof.
  intros Hi (H1 & H2 & H3). repeat split.
  - intros m a b Ha Hb. apply (H1 m); now apply Hi.
  - eapply H2; try apply Hi; eassumption.
  - eapply H2; try apply Hi; eassumption.
  - intros k p Hin. apply (H3 k p). now apply Hi.
Qed.

Lemma no_clash_run (env : Env) (body : list node) :
  probe_fails_softly env -> no_clash (flat_map node_items body) ->
  exists out, run env body = Ok out.
Proof.
  intros Hp Hc.
  assert (Hc' : no_clash (items (visit_tree body))).
  { eapply no_clash_ext; [|exact Hc]. intros i. symmetry. apply visit_tree_items. }
  pose proof (visit_tree_wf body) as Hwf.
  destruct (new_nodes_total env (visit_tree body)) as [l Hl]; [| |exact Hwf|].
  - intros k names Hin. apply (no_clash_names_sorted (items (visit_tree body)) k).
    + exact Hc'.
    + destruct Hwf as (_ & _ & Hv). rewrite Forall_forall in Hv. exact (Hv _ Hin).
    + intros p Hpin. apply In_items_from. exists names. auto.
  - intros i Hi. eapply item_entry_total; eassumption.
  - destruct (new_nodes_inv _ _ _ Hwf Hl) as (its & Hperm & Hits).
    assert (Hnd : NoDup l).
    { apply (NoDup_map_inv snd).
      assert (Hmap : map snd l = map node_of_item its).
      { clear - Hits. induction Hits as [|i e its l Hie Hits IH]; simpl; [reflexivity|].
        unfold item_entry in Hie. apply keyed_Ok in Hie. destruct Hie as [_ ->].
        now rewrite IH. }
      rewrite Hmap. apply Injective_map_NoDup; [exact node_of_item_inj|].
      eapply Permutation_NoDup; [symmetry; exact Hperm | now apply items_NoDup]. }
    destruct (sorted_from_total entry_lt_flip l []) as [s Hs]; [exact Hnd| |].
    + intros e1 e2 H1 H2 Hne. cbn beta.
      destruct (Forall2_In_r _ _ _ _ Hits H1) as (i1 & Hi1 & He1).
      destruct (Forall2_In_r _ _ _ _ Hits H2) as (i2 & Hi2 & He2).
      apply (items_comparable env (items (visit_tree body)) i1 i2); auto.
      * eapply Permutation_in; eassumption.
      * eapply Permutation_in; eassumption.
      * intros ->. congruence.
    + exists (write_loop None s ""). unfold run, write_sorted. rewrite Hl. simpl.
      fold (sorted l) in Hs. rewrite Hs. reflexivity.
Qed.

(** X15: when the probe of the search path fails with [ImportError] only, a
    run returns exactly on the inputs without a clash: no module imported
    both with and without an alias, no name imported twice from modules of
    one name (at two levels or under two aliases), and no from-import
    without module name. *)
Theorem X15_when_a_run_returns (env : Env) (body : list node) :
  probe_fails_softly env ->
  ((exists out, run env body = Ok out) <-> no_clash (flat_map node_items body)).
Proof.
  intros Hp. split.
  - intros [out Hr]. exact (run_no_clash _ _ _ Hr).
  - now apply no_clash_run.
Qed.

Lemma X15_witness :
  (exists out, run lenient_env [imp "sys"; frm 0 "os" "path"; imp "requests"] = Ok out)
  <-> no_clash (flat_map node_items [imp "sys"; frm 0 "os" "path"; imp "requests"]).
Proof.
  apply (X15_when_a_run_returns lenient_env [imp "sys"; frm 0 "os" "path"; imp "requests"]).
  intros m e. simpl. destruct (m =? "requests")%string; [discriminate|].
  intros [= <-]. reflexivity.
Defined.

(** X16: [write_sorted] appends: what the file held before the call stays
    in front, followed by the text the call writes to an empty file; whether
    the call raises does not depend on the file. *)
Theorem X16_write_sorted_appends (env : Env) (self : ImpSorter) (file : string) :
  write_sorted env self file
  = text <- write_sorted env self ""%string ;; Ok (file ++ text)%string.
Proof.
  unfold write_sorted. destruct (new_nodes env self) as [l|e]; simpl; [|reflexivity].
  destruct (sorted l) as [s|e]; simpl; [|reflexivity].
  rewrite (write_loop_lines s file), (write_loop_lines s ""%string). reflexivity.
Qed.
